(** * Primary replication manager: commit-callback ledger

    A shallow embedding of [src/replication/primary_replication_manager.cpp]
    (namespace [noisepage::replication]) and the properties of its callback
    ledger: which commit callbacks fire, when, and in which order.

    The manager is modelled as a record of its fields, every method as a
    function on that record.  The two observable effects of the code, calling
    [cb.fn_(cb.arg_)] and handing a message to the messenger, are recorded in
    two logs carried by the state ([invoked_] and [sent_]).

    The queue and the table are only touched under [callbacks_mutex_]; a run
    is therefore a sequence of calls served one after the other.  Logging and
    the [ts] vector that only feeds it are left out, and so is [EventLoop],
    which hands [TXN_APPLIED] messages to [Handle] and everything else to the
    base class. *)

From stdpp Require Import gmap strings list fin_maps fin_sets sorting.
From Stdlib Require Import NArith Lia.

Local Open Scope N_scope.

(** ** Data model *)

(** [transaction::timestamp_t], [record_batch_id_t] and [msg_id_t] are strong
    typedefs of [uint64_t]: numbers below [2^64]. *)
Abbreviation timestamp_t := N (only parsing).
Abbreviation record_batch_id_t := N (only parsing).
Abbreviation msg_id_t := N (only parsing).

Definition UINT64_MODULUS : N := 2 ^ 64.

(** [x++] on a [uint64_t] (the value stored afterwards). *)
Definition uint64_incr (x : N) : N := (x + 1) mod UINT64_MODULUS.

(** [transaction::ReplicationPolicy]. *)
Inductive ReplicationPolicy := DISABLE | SYNC | ASYNC.

Global Instance ReplicationPolicy_eq_dec : EqDecision ReplicationPolicy.
Proof. solve_decision. Defined.

(** [storage::CommitCallback]: the function pointer, its argument (both kept
    as addresses) and the start time of the transaction it belongs to. *)
Record CommitCallback := {
  fn_ : N;
  arg_ : N;
  txn_start_time_ : timestamp_t;
}.

Global Instance CommitCallback_eq_dec : EqDecision CommitCallback.
Proof. solve_decision. Defined.

(** [BatchOfCommitCallbacks]: the element type of the queue. *)
Record BatchOfCommitCallbacks := {
  callbacks_ : list CommitCallback;
  has_records_ : bool;
}.

Global Instance BatchOfCommitCallbacks_eq_dec : EqDecision BatchOfCommitCallbacks.
Proof. solve_decision. Defined.

(** [storage::BufferedLogWriter]: the manager never looks inside.  It is known
    by its address, and [MarkSerialized()] answers whether the buffer goes
    back to the pool. *)
Record BufferedLogWriter := {
  buffer_addr_ : N;
  MarkSerialized : bool;
}.

Global Instance BufferedLogWriter_eq_dec : EqDecision BufferedLogWriter.
Proof. solve_decision. Defined.

(** [TxnAppliedMsg], as far as [Handle] reads it. *)
Record TxnAppliedMsg := {
  GetMessageId : msg_id_t;
  GetAppliedTxnId : timestamp_t;
}.

Global Instance TxnAppliedMsg_eq_dec : EqDecision TxnAppliedMsg.
Proof. solve_decision. Defined.

(** What leaves the primary through the messenger. *)
Inductive message :=
  | RecordsBatchMsg (msg_id : msg_id_t) (batch_id : record_batch_id_t)
                    (records : BufferedLogWriter)
  | AckMsg (msg_id : msg_id_t) (acked : msg_id_t).

Global Instance message_eq_dec : EqDecision message.
Proof. solve_decision. Defined.

(** The fields of [PrimaryReplicationManager] (those of its base class
    included), followed by the two effect logs.  The front of the
    [std::queue] is the head of the list. *)
Record PrimaryReplicationManager := {
  replicas_ : gset string;
  next_msg_id_ : msg_id_t;
  next_batch_id_ : record_batch_id_t;
  txn_callbacks_ : list BatchOfCommitCallbacks;
  txns_applied_on_replicas_ : gmap N (gset string);
  empty_buffer_queue_ : list BufferedLogWriter;
  invoked_ : list CommitCallback;
  sent_ : list (string * message);
}.

Definition set_next_msg_id (v : N) (s : PrimaryReplicationManager) :=
  {| replicas_ := replicas_ s; next_msg_id_ := v;
     next_batch_id_ := next_batch_id_ s; txn_callbacks_ := txn_callbacks_ s;
     txns_applied_on_replicas_ := txns_applied_on_replicas_ s;
     empty_buffer_queue_ := empty_buffer_queue_ s;
     invoked_ := invoked_ s; sent_ := sent_ s |}.

Definition set_next_batch_id (v : N) (s : PrimaryReplicationManager) :=
  {| replicas_ := replicas_ s; next_msg_id_ := next_msg_id_ s;
     next_batch_id_ := v; txn_callbacks_ := txn_callbacks_ s;
     txns_applied_on_replicas_ := txns_applied_on_replicas_ s;
     empty_buffer_queue_ := empty_buffer_queue_ s;
     invoked_ := invoked_ s; sent_ := sent_ s |}.

Definition set_txn_callbacks (v : list BatchOfCommitCallbacks)
    (s : PrimaryReplicationManager) :=
  {| replicas_ := replicas_ s; next_msg_id_ := next_msg_id_ s;
     next_batch_id_ := next_batch_id_ s; txn_callbacks_ := v;
     txns_applied_on_replicas_ := txns_applied_on_replicas_ s;
     empty_buffer_queue_ := empty_buffer_queue_ s;
     invoked_ := invoked_ s; sent_ := sent_ s |}.

Definition set_txns_applied (v : gmap N (gset string))
    (s : PrimaryReplicationManager) :=
  {| replicas_ := replicas_ s; next_msg_id_ := next_msg_id_ s;
     next_batch_id_ := next_batch_id_ s; txn_callbacks_ := txn_callbacks_ s;
     txns_applied_on_replicas_ := v;
     empty_buffer_queue_ := empty_buffer_queue_ s;
     invoked_ := invoked_ s; sent_ := sent_ s |}.

Definition set_empty_buffer_queue (v : list BufferedLogWriter)
    (s : PrimaryReplicationManager) :=
  {| replicas_ := replicas_ s; next_msg_id_ := next_msg_id_ s;
     next_batch_id_ := next_batch_id_ s; txn_callbacks_ := txn_callbacks_ s;
     txns_applied_on_replicas_ := txns_applied_on_replicas_ s;
     empty_buffer_queue_ := v;
     invoked_ := invoked_ s; sent_ := sent_ s |}.

Definition set_invoked (v : list CommitCallback)
    (s : PrimaryReplicationManager) :=
  {| replicas_ := replicas_ s; next_msg_id_ := next_msg_id_ s;
     next_batch_id_ := next_batch_id_ s; txn_callbacks_ := txn_callbacks_ s;
     txns_applied_on_replicas_ := txns_applied_on_replicas_ s;
     empty_buffer_queue_ := empty_buffer_queue_ s;
     invoked_ := v; sent_ := sent_ s |}.

Definition set_sent (v : list (string * message))
    (s : PrimaryReplicationManager) :=
  {| replicas_ := replicas_ s; next_msg_id_ := next_msg_id_ s;
     next_batch_id_ := next_batch_id_ s; txn_callbacks_ := txn_callbacks_ s;
     txns_applied_on_replicas_ := txns_applied_on_replicas_ s;
     empty_buffer_queue_ := empty_buffer_queue_ s;
     invoked_ := invoked_ s; sent_ := v |}.

(** ** Collaborators that are only called from this file *)

(** Modelled from the spec: the [NOISEPAGE_ASSERT] macro is defined outside
    the translated sources.  A failed assertion is a fatal contract
    violation: the call does not return. *)
Definition NOISEPAGE_ASSERT (cond : bool) : option unit :=
  if cond then Some tt else None.

(** Modelled from the spec: [ReplicationManager::GetNextMessageId] belongs to
    the base class.  The message identifier is a 64-bit counter of its own,
    handed out and advanced once per outgoing message. *)
Definition GetNextMessageId (s : PrimaryReplicationManager)
  : msg_id_t * PrimaryReplicationManager :=
  (next_msg_id_ s, set_next_msg_id (uint64_incr (next_msg_id_ s)) s).

(** Modelled from the spec: [ReplicationManager::Send] belongs to the base
    class.  It hands one envelope for one destination to the messenger. *)
Definition Send (destination : string) (msg : message)
    (s : PrimaryReplicationManager) : PrimaryReplicationManager :=
  set_sent (sent_ s ++ [(destination, msg)]) s.

(** Modelled from the spec: [ReplicationManager::SendAckForMessage] belongs to
    the base class.  The acknowledgement is an outgoing envelope with a fresh
    message identifier that echoes the identifier it acknowledges, addressed
    to the sender of the message. *)
Definition SendAckForMessage (routing_id : string) (msg : TxnAppliedMsg)
    (s : PrimaryReplicationManager) : PrimaryReplicationManager :=
  let '(id, s1) := GetNextMessageId s in
  Send routing_id (AckMsg id (GetMessageId msg)) s1.

(** [cb.fn_(cb.arg_)]: the call is recorded in the log. *)
Definition invoke (cb : CommitCallback) (s : PrimaryReplicationManager) :=
  set_invoked (invoked_ s ++ [cb]) s.

(** [for (const auto &cb : callbacks) cb.fn_(cb.arg_);] *)
Definition invoke_all (callbacks : list CommitCallback)
    (s : PrimaryReplicationManager) : PrimaryReplicationManager :=
  foldl (fun acc cb => invoke cb acc) s callbacks.

(** ** Inputs of the examples *)

Definition sample_records : BufferedLogWriter :=
  {| buffer_addr_ := 4096; MarkSerialized := true |}.

Definition sample_callback (fn txn : N) : CommitCallback :=
  {| fn_ := fn; arg_ := 0; txn_start_time_ := txn |}.

Definition sample_applied (txn : N) : TxnAppliedMsg :=
  {| GetMessageId := 7; GetAppliedTxnId := txn |}.

(** A decidable statement about concrete data, settled by evaluation. *)
Ltac by_evaluation :=
  match goal with
  | |- ?P =>
      let d := constr:(_ : Decision P) in
      refine (@bool_decide_unpack P d _); vm_compute; exact I
  end.

(** Name the state a concrete run ends in: [Hrun] keeps the equation. *)
Ltac name_final_state s Hrun :=
  match goal with
  | |- ∃ s', ?r = Some s' ∧ _ =>
      destruct r as [s|] eqn:Hrun;
      [exists s; split; [reflexivity|]
      |exfalso; vm_compute in Hrun; discriminate Hrun]
  end.

(** A fact about the final state, read off the evaluated run. *)
Ltac by_running Hrun :=
  vm_compute in Hrun; injection Hrun as <-; vm_compute; reflexivity.

(** ** The methods of [PrimaryReplicationManager] *)

Section Manager.

(** [INVALID_RECORD_BATCH_ID] is declared in a header outside the translated
    sources; the development holds for every value of it. *)
Variable INVALID_RECORD_BATCH_ID : record_batch_id_t.

(** [GetNextBatchId] (lines 82-88): post-increment, then step over the
    reserved value. *)
Definition GetNextBatchId (s : PrimaryReplicationManager)
  : record_batch_id_t * PrimaryReplicationManager :=
  let next_batch_id := next_batch_id_ s in
  let s1 := set_next_batch_id (uint64_incr (next_batch_id_ s)) s in
  let s2 :=
    if N.eqb (next_batch_id_ s1) INVALID_RECORD_BATCH_ID
    then set_next_batch_id (uint64_incr (next_batch_id_ s1)) s1
    else s1 in
  (next_batch_id, s2).

(** The test of lines 130-132: the transaction is in the table and its set is
    as large as [replicas_]. *)
Definition all_replicas_applied (n_replicas : nat)
    (applied : gmap N (gset string)) (callback : CommitCallback) : bool :=
  match applied !! txn_start_time_ callback with
  | Some replicas => bool_decide (size replicas = n_replicas)
  | None => false
  end.

(** The [for] loop of lines 127-141 over one batch.  It answers the
    callbacks it invoked (in order), the callbacks still in the batch and the
    table.  The loop leaves through [return] exactly when it leaves a
    callback behind. *)
Fixpoint scan_batch (n_replicas : nat) (callbacks : list CommitCallback)
    (applied : gmap N (gset string))
  : list CommitCallback * list CommitCallback * gmap N (gset string) :=
  match callbacks with
  | [] => ([], [], applied)
  | callback :: rest =>
      if negb (all_replicas_applied n_replicas applied callback)
      then ([], callbacks, applied)
      else
        let '(fired, kept, applied') :=
          scan_batch n_replicas rest
            (delete (txn_start_time_ callback) applied) in
        (callback :: fired, kept, applied')
  end.

(** The [while] loop of lines 116-145 over the queue. *)
Fixpoint drain (n_replicas : nat) (queue : list BatchOfCommitCallbacks)
    (applied : gmap N (gset string))
  : list CommitCallback * list BatchOfCommitCallbacks * gmap N (gset string) :=
  match queue with
  | [] => ([], [], applied)
  | item :: rest =>
      if negb (has_records_ item)
      then
        let '(fired, queue', applied') := drain n_replicas rest applied in
        (callbacks_ item ++ fired, queue', applied')
      else
        match scan_batch n_replicas (callbacks_ item) applied with
        | (fired0, [], applied0) =>
            let '(fired, queue', applied') := drain n_replicas rest applied0 in
            (fired0 ++ fired, queue', applied')
        | (fired0, kept, applied0) =>
            (fired0,
             {| callbacks_ := kept; has_records_ := has_records_ item |} :: rest,
             applied0)
        end
  end.

(** [ProcessTxnCallbacks] (lines 112-146). *)
Definition ProcessTxnCallbacks (s : PrimaryReplicationManager)
  : PrimaryReplicationManager :=
  let '(fired, queue', applied') :=
    drain (size (replicas_ s)) (txn_callbacks_ s)
      (txns_applied_on_replicas_ s) in
  set_txns_applied applied'
    (set_txn_callbacks queue' (invoke_all fired s)).

(** Lines 99-103 of [Handle]: create the set of the transaction if it is
    missing, then add the sender to it. *)
Definition mark_applied (txn_id : timestamp_t) (routing_id : string)
    (applied : gmap N (gset string)) : gmap N (gset string) :=
  let applied1 :=
    match applied !! txn_id with
    | None => <[txn_id := (∅ : gset string)]> applied
    | Some _ => applied
    end in
  alter (fun replicas => {[routing_id]} ∪ replicas) txn_id applied1.

(** [Handle] (lines 90-110). *)
Definition Handle (routing_id : string) (msg : TxnAppliedMsg)
    (s : PrimaryReplicationManager) : PrimaryReplicationManager :=
  let s1 := SendAckForMessage routing_id msg s in
  let txn_id := GetAppliedTxnId msg in
  let s2 :=
    set_txns_applied
      (mark_applied txn_id routing_id (txns_applied_on_replicas_ s1)) s1 in
  let replicas := default ∅ (txns_applied_on_replicas_ s2 !! txn_id) in
  if bool_decide (size replicas = size (replicas_ s2))
  then ProcessTxnCallbacks s2
  else s2.

(** [ReplicateBatchOfRecords] (lines 32-80).  [records_batch] is [None] for
    the null pointer. *)
Definition ReplicateBatchOfRecords (records_batch : option BufferedLogWriter)
    (commit_callbacks : list CommitCallback) (policy : ReplicationPolicy)
    (s : PrimaryReplicationManager) : option PrimaryReplicationManager :=
  match NOISEPAGE_ASSERT (negb (bool_decide (policy = DISABLE))) with
  | None => None
  | Some _ =>
      let has_records := bool_decide (is_Some records_batch) in
      let s1 :=
        if bool_decide (policy = ASYNC) || negb has_records
        then invoke_all commit_callbacks s
        else
          set_txn_callbacks
            (txn_callbacks_ s ++
               [{| callbacks_ := commit_callbacks;
                   has_records_ := has_records |}]) s in
      match records_batch with
      | Some records =>
          let '(msg_id, s2) := GetNextMessageId s1 in
          let '(batch_id, s3) := GetNextBatchId s2 in
          let msg := RecordsBatchMsg msg_id batch_id records in
          let s4 :=
            foldl (fun acc replica => Send replica msg acc) s3
              (elements (replicas_ s3)) in
          Some (if MarkSerialized records
                then set_empty_buffer_queue
                       (empty_buffer_queue_ s4 ++ [records]) s4
                else s4)
      | None => Some s1
      end
  end.

(** ** Runs of the manager *)

(** The two entry points other components call. *)
Inductive call :=
  | CallReplicate (records_batch : option BufferedLogWriter)
                  (commit_callbacks : list CommitCallback)
                  (policy : ReplicationPolicy)
  | CallHandle (routing_id : string) (msg : TxnAppliedMsg).

Global Instance call_eq_dec : EqDecision call.
Proof. solve_decision. Defined.

Definition step (c : call) (s : PrimaryReplicationManager)
  : option PrimaryReplicationManager :=
  match c with
  | CallReplicate records_batch commit_callbacks policy =>
      ReplicateBatchOfRecords records_batch commit_callbacks policy s
  | CallHandle routing_id msg => Some (Handle routing_id msg s)
  end.

(** The calls are served one after the other (the ledger is guarded by one
    mutex); a failed assertion ends the run. *)
Fixpoint run (calls : list call) (s : PrimaryReplicationManager)
  : option PrimaryReplicationManager :=
  match calls with
  | [] => Some s
  | c :: rest =>
      match step c s with
      | Some s' => run rest s'
      | None => None
      end
  end.

(** The manager after construction: the replicas come from the hosts file,
    the two counters start where the headers say, nothing is queued. *)
Definition initial_state (replicas : gset string)
    (first_msg_id first_batch_id : N) : PrimaryReplicationManager :=
  {| replicas_ := replicas; next_msg_id_ := first_msg_id;
     next_batch_id_ := first_batch_id; txn_callbacks_ := [];
     txns_applied_on_replicas_ := ∅; empty_buffer_queue_ := [];
     invoked_ := []; sent_ := [] |}.

(** ** Ghost views of a state and of a run *)

(** The callbacks waiting in the queue, front first. *)
Definition queued (s : PrimaryReplicationManager) : list CommitCallback :=
  concat (callbacks_ <$> txn_callbacks_ s).

(** Does the call put a batch in the queue (the [else] of line 54)? *)
Definition enqueues (records_batch : option BufferedLogWriter)
    (policy : ReplicationPolicy) : bool :=
  negb (bool_decide (policy = ASYNC)
        || negb (bool_decide (is_Some records_batch))).

(** Every callback handed to [ReplicateBatchOfRecords] during the run. *)
Fixpoint submitted (calls : list call) : list CommitCallback :=
  match calls with
  | [] => []
  | CallReplicate _ commit_callbacks _ :: rest =>
      commit_callbacks ++ submitted rest
  | CallHandle _ _ :: rest => submitted rest
  end.

(** Every callback that went through the queue during the run, in the order
    of enqueueing. *)
Fixpoint enqueued (calls : list call) : list CommitCallback :=
  match calls with
  | [] => []
  | CallReplicate records_batch commit_callbacks policy :: rest =>
      (if enqueues records_batch policy then commit_callbacks else [])
      ++ enqueued rest
  | CallHandle _ _ :: rest => enqueued rest
  end.

(** Replica [r] sent an applied-notification for transaction [t]. *)
Definition notified (calls : list call) (r : string) (t : timestamp_t) : Prop :=
  ∃ msg, CallHandle r msg ∈ calls ∧ GetAppliedTxnId msg = t.

(** Every applied-notification of the run comes from a configured replica. *)
Definition senders_configured (replicas : gset string) (calls : list call)
  : Prop :=
  Forall (fun c => match c with
                   | CallHandle routing_id _ => routing_id ∈ replicas
                   | CallReplicate _ _ _ => True
                   end) calls.

(** [a] comes before [b] in [l]. *)
Definition before {A} (a b : A) (l : list A) : Prop :=
  ∃ l1 l2 l3, l = l1 ++ a :: l2 ++ b :: l3.

(** ** Ghost definitions used by the statements *)

(** Two states with the same ledger: replica set, queue, table and
    invocation log. *)
Definition same_ledger (s s' : PrimaryReplicationManager) : Prop :=
  invoked_ s' = invoked_ s ∧ replicas_ s' = replicas_ s
  ∧ txn_callbacks_ s' = txn_callbacks_ s
  ∧ txns_applied_on_replicas_ s' = txns_applied_on_replicas_ s.

(** What holds of the ledger after every run from the initial state:
    - the replica set is the configured one;
    - every queued batch has records;
    - the callbacks invoked so far and the callbacks still queued are,
      together, the callbacks submitted (as multisets);
    - the table only holds senders that did notify;
    - the callbacks that left the queue ([released]) are a prefix of the
      enqueued ones, were invoked in that order, and each was backed by as
      many notifying senders as there are replicas. *)
Definition ledger_inv (replicas : gset string) (calls : list call)
    (s : PrimaryReplicationManager) : Prop :=
  replicas_ s = replicas
  ∧ Forall (fun b => has_records_ b = true) (txn_callbacks_ s)
  ∧ invoked_ s ++ queued s ≡ₚ submitted calls
  ∧ (∀ t (S : gset string) r,
       txns_applied_on_replicas_ s !! t = Some S → r ∈ S →
       notified calls r t)
  ∧ ∃ released,
      released ++ queued s = enqueued calls
      ∧ sublist released (invoked_ s)
      ∧ ∀ cb, cb ∈ released →
          ∃ S : gset string,
            size S = size replicas
            ∧ ∀ r, r ∈ S → notified calls r (txn_start_time_ cb).

(** One more call of [GetNextBatchId]: the identifier it returns is appended
    to those returned so far. *)
Definition issue_batch_id (acc : list N * PrimaryReplicationManager)
  : list N * PrimaryReplicationManager :=
  let '(id, s') := GetNextBatchId acc.2 in (acc.1 ++ [id], s').

(** The identifiers returned by [n] successive calls of [GetNextBatchId], and
    the manager after them. *)
Definition issued_batch_ids (n : N) (s : PrimaryReplicationManager)
  : list N * PrimaryReplicationManager :=
  N.iter n issue_batch_id ([], s).

(** The number of times the counter stepped over the reserved value in its
    first [k] moves from [c], while it has not wrapped. *)
Definition skipped (c k : N) : N :=
  if (c <? INVALID_RECORD_BATCH_ID) && (INVALID_RECORD_BATCH_ID <=? c + k)
  then 1 else 0.

(** Does the drain reach line 119 with a batch without records?  The
    function follows the control flow of [drain]. *)
Fixpoint visits_no_records_branch (n_replicas : nat)
    (queue : list BatchOfCommitCallbacks) (applied : gmap N (gset string))
  : bool :=
  match queue with
  | [] => false
  | item :: rest =>
      if negb (has_records_ item)
      then true
      else
        match scan_batch n_replicas (callbacks_ item) applied with
        | (_, [], applied0) => visits_no_records_branch n_replicas rest applied0
        | (_, _ :: _, _) => false
        end
  end.

(** The head of the queue is stuck: the queue is empty, or its first callback
    has no full set. *)
Definition head_blocked (s : PrimaryReplicationManager) : Prop :=
  match txn_callbacks_ s with
  | [] => True
  | b :: _ =>
      has_records_ b = true
      ∧ ∃ cb rest,
          callbacks_ b = cb :: rest
          ∧ all_replicas_applied (size (replicas_ s))
              (txns_applied_on_replicas_ s) cb = false
  end.

(** ** Ghost views of the messages sent *)

(** The batch identifiers of the record batches sent to [destination], in
    the order of sending. *)
Definition batch_ids_to (destination : string)
    (sent : list (string * message)) : list N :=
  omap (fun dm =>
          match dm.2 with
          | RecordsBatchMsg _ batch_id _ =>
              if decide (dm.1 = destination) then Some batch_id else None
          | AckMsg _ _ => None
          end) sent.

(** The number of calls of the run that carry a record batch. *)
Fixpoint records_calls (calls : list call) : N :=
  match calls with
  | [] => 0
  | CallReplicate (Some _) _ _ :: rest => N.succ (records_calls rest)
  | _ :: rest => records_calls rest
  end.

(** The callbacks of the calls that do not go through the queue, in the
    order of the calls. *)
Fixpoint immediate (calls : list call) : list CommitCallback :=
  match calls with
  | [] => []
  | CallReplicate records_batch commit_callbacks policy :: rest =>
      (if enqueues records_batch policy then [] else commit_callbacks)
      ++ immediate rest
  | CallHandle _ _ :: rest => immediate rest
  end.

(** No record batch in the log carries the reserved identifier. *)
Definition sent_batch_ids_valid (sent : list (string * message)) : Prop :=
  Forall (fun dm =>
            match dm.2 with
            | RecordsBatchMsg _ batch_id _ =>
                batch_id ≠ INVALID_RECORD_BATCH_ID
            | AckMsg _ _ => True
            end) sent.

(** ** What each method leaves untouched *)

Lemma invoke_all_fields callbacks s :
  invoked_ (invoke_all callbacks s) = invoked_ s ++ callbacks
  ∧ replicas_ (invoke_all callbacks s) = replicas_ s
  ∧ txn_callbacks_ (invoke_all callbacks s) = txn_callbacks_ s
  ∧ txns_applied_on_replicas_ (invoke_all callbacks s)
    = txns_applied_on_replicas_ s
  ∧ sent_ (invoke_all callbacks s) = sent_ s
  ∧ next_batch_id_ (invoke_all callbacks s) = next_batch_id_ s.
Proof.
  unfold invoke_all. revert s.
  induction callbacks as [|cb callbacks IH]; intros s; simpl.
  - by rewrite app_nil_r.
  - destruct (IH (invoke cb s)) as (-> & -> & -> & -> & -> & ->).
    simpl. by rewrite <- app_assoc.
Qed.

Lemma invoked_invoke_all callbacks s :
  invoked_ (invoke_all callbacks s) = invoked_ s ++ callbacks.
Proof. apply invoke_all_fields. Qed.

Lemma send_all_fields msg destinations s :
  let s' := foldl (fun acc replica => Send replica msg acc) s destinations in
  invoked_ s' = invoked_ s
  ∧ replicas_ s' = replicas_ s
  ∧ txn_callbacks_ s' = txn_callbacks_ s
  ∧ txns_applied_on_replicas_ s' = txns_applied_on_replicas_ s
  ∧ next_batch_id_ s' = next_batch_id_ s
  ∧ sent_ s' = sent_ s ++ ((fun d => (d, msg)) <$> destinations).
Proof.
  revert s. induction destinations as [|d destinations IH]; intros s; simpl.
  - by rewrite app_nil_r.
  - destruct (IH (Send d msg s)) as (-> & -> & -> & -> & -> & ->).
    simpl. by rewrite <- app_assoc.
Qed.

Lemma same_ledger_trans s1 s2 s3 :
  same_ledger s1 s2 → same_ledger s2 s3 → same_ledger s1 s3.
Proof.
  intros (? & ? & ? & ?) (? & ? & ? & ?). repeat split; congruence.
Qed.

Lemma GetNextMessageId_ledger s : same_ledger s (GetNextMessageId s).2.
Proof. done. Qed.

Lemma GetNextBatchId_ledger s : same_ledger s (GetNextBatchId s).2.
Proof. unfold GetNextBatchId. simpl. by destruct (N.eqb _ _). Qed.

Lemma send_all_ledger msg destinations s :
  same_ledger s (foldl (fun acc replica => Send replica msg acc) s destinations).
Proof.
  pose proof (send_all_fields msg destinations s) as H. simpl in H.
  destruct H as (? & ? & ? & ? & _). done.
Qed.

(** The ledger after [ReplicateBatchOfRecords]: either the callbacks were
    invoked on the spot, or they were appended to the queue as one batch. *)
Lemma ReplicateBatchOfRecords_ledger records_batch commit_callbacks policy s s' :
  ReplicateBatchOfRecords records_batch commit_callbacks policy s = Some s' →
  policy ≠ DISABLE
  ∧ replicas_ s' = replicas_ s
  ∧ txns_applied_on_replicas_ s' = txns_applied_on_replicas_ s
  ∧ (if enqueues records_batch policy
     then invoked_ s' = invoked_ s
          ∧ txn_callbacks_ s'
            = txn_callbacks_ s
                ++ [{| callbacks_ := commit_callbacks; has_records_ := true |}]
     else invoked_ s' = invoked_ s ++ commit_callbacks
          ∧ txn_callbacks_ s' = txn_callbacks_ s).
Proof.
  unfold ReplicateBatchOfRecords, NOISEPAGE_ASSERT.
  destruct (decide (policy = DISABLE)) as [->|Hpol]; [done|].
  rewrite (bool_decide_eq_false_2 _ Hpol).
  cbn [negb].
  set (has_records := bool_decide (is_Some records_batch)).
  set (s1 := if bool_decide (policy = ASYNC) || negb has_records
             then invoke_all commit_callbacks s
             else set_txn_callbacks (_ ++ _) s).
  intros Hs'.
  assert (Hfr : same_ledger s1 s').
  { destruct records_batch as [records|]; [|by simplify_eq].
    destruct (GetNextMessageId s1) as [msg_id s2] eqn:E2.
    destruct (GetNextBatchId s2) as [batch_id s3] eqn:E3.
    pose proof (GetNextMessageId_ledger s1) as H2. rewrite E2 in H2.
    pose proof (GetNextBatchId_ledger s2) as H3. rewrite E3 in H3.
    pose proof (send_all_ledger (RecordsBatchMsg msg_id batch_id records)
                  (elements (replicas_ s3)) s3) as H4.
    eapply same_ledger_trans; [exact H2|].
    eapply same_ledger_trans; [exact H3|].
    eapply same_ledger_trans; [exact H4|].
    destruct (MarkSerialized records); by simplify_eq. }
  destruct Hfr as (-> & -> & -> & ->). split; [done|].
  unfold enqueues. fold has_records. subst s1.
  destruct (bool_decide (policy = ASYNC) || negb has_records) eqn:Eb; simpl.
  - pose proof (invoke_all_fields commit_callbacks s)
      as (-> & -> & -> & -> & _).
    done.
  - apply orb_false_iff in Eb as [_ Eh]. apply negb_false_iff in Eh.
    by rewrite Eh.
Qed.

(** The table after lines 99-103, in one step. *)
Lemma mark_applied_insert txn_id routing_id (applied : gmap N (gset string)) :
  mark_applied txn_id routing_id applied
  = <[txn_id := {[routing_id]} ∪ default ∅ (applied !! txn_id)]> applied.
Proof.
  unfold mark_applied. apply map_eq. intros t.
  destruct (applied !! txn_id) as [S|] eqn:E; simpl.
  - destruct (decide (txn_id = t)) as [<-|Hne].
    + by rewrite lookup_alter_eq, lookup_insert_eq, E.
    + by rewrite lookup_alter_ne, lookup_insert_ne.
  - destruct (decide (txn_id = t)) as [<-|Hne].
    + by rewrite lookup_alter_eq, !lookup_insert_eq.
    + by rewrite lookup_alter_ne, !lookup_insert_ne.
Qed.

(** The ledger after [Handle]. *)
Lemma Handle_ledger routing_id msg s :
  let txn_id := GetAppliedTxnId msg in
  let applied := mark_applied txn_id routing_id (txns_applied_on_replicas_ s) in
  replicas_ (Handle routing_id msg s) = replicas_ s
  ∧ (if bool_decide (size (default ∅ (applied !! txn_id))
                     = size (replicas_ s))
     then
       ∃ fired queue' applied',
         drain (size (replicas_ s)) (txn_callbacks_ s) applied
         = (fired, queue', applied')
         ∧ invoked_ (Handle routing_id msg s) = invoked_ s ++ fired
         ∧ txn_callbacks_ (Handle routing_id msg s) = queue'
         ∧ txns_applied_on_replicas_ (Handle routing_id msg s) = applied'
     else
       invoked_ (Handle routing_id msg s) = invoked_ s
       ∧ txn_callbacks_ (Handle routing_id msg s) = txn_callbacks_ s
       ∧ txns_applied_on_replicas_ (Handle routing_id msg s) = applied).
Proof.
  intros txn_id applied. unfold Handle, SendAckForMessage. simpl.
  fold txn_id. fold applied.
  destruct (bool_decide _); simpl; [|done].
  unfold ProcessTxnCallbacks. simpl.
  destruct (drain _ _ _) as [[fired queue'] applied'] eqn:Hd. simpl.
  split.
  - by pose proof (invoke_all_fields fired
      (set_txns_applied applied
         (Send routing_id (AckMsg (next_msg_id_ s) (GetMessageId msg))
            (set_next_msg_id (uint64_incr (next_msg_id_ s)) s))))
      as (_ & -> & _).
  - exists fired, queue', applied'. split; [done|].
    by rewrite invoked_invoke_all.
Qed.

(** ** The scan of one batch *)

(** The scan splits the batch: what it invoked, then what it kept. *)
Lemma scan_batch_split n callbacks applied fired kept applied' :
  scan_batch n callbacks applied = (fired, kept, applied') →
  callbacks = fired ++ kept.
Proof.
  revert applied fired kept applied'.
  induction callbacks as [|cb callbacks IH]; intros applied fired kept applied';
    simpl.
  - by intros [= <- <- <-].
  - destruct (all_replicas_applied n applied cb); simpl.
    + destruct (scan_batch n callbacks _) as [[f k] a] eqn:E.
      intros [= <- <- <-]. simpl. f_equal. by eapply IH.
    + by intros [= <- <- <-].
Qed.

(** The scan only erases entries of the table. *)
Lemma scan_batch_subseteq n callbacks applied fired kept applied' :
  scan_batch n callbacks applied = (fired, kept, applied') →
  applied' ⊆ applied.
Proof.
  revert applied fired kept applied'.
  induction callbacks as [|cb callbacks IH]; intros applied fired kept applied';
    simpl.
  - by intros [= <- <- <-].
  - destruct (all_replicas_applied n applied cb); simpl.
    + destruct (scan_batch n callbacks _) as [[f k] a] eqn:E.
      intros [= <- <- <-]. etrans; [by eapply IH|]. apply delete_subseteq.
    + by intros [= <- <- <-].
Qed.

Lemma all_replicas_applied_Some n (applied : gmap N (gset string)) cb :
  all_replicas_applied n applied cb = true ↔
  ∃ replicas, applied !! txn_start_time_ cb = Some replicas
              ∧ size replicas = n.
Proof.
  unfold all_replicas_applied.
  destruct (applied !! txn_start_time_ cb) as [S|]; split.
  - intros H%bool_decide_eq_true. eauto.
  - intros (S' & [= <-] & H). by apply bool_decide_eq_true.
  - done.
  - by intros (? & ? & _).
Qed.

(** Every callback the scan invoked had a full set in the table. *)
Lemma scan_batch_fired_applied n callbacks applied fired kept applied' cb :
  scan_batch n callbacks applied = (fired, kept, applied') →
  cb ∈ fired →
  ∃ replicas, applied !! txn_start_time_ cb = Some replicas
              ∧ size replicas = n.
Proof.
  revert applied fired kept applied'.
  induction callbacks as [|c callbacks IH]; intros applied fired kept applied';
    simpl.
  - intros [= <- <- <-]. by intros ?%elem_of_nil.
  - destruct (all_replicas_applied n applied c) eqn:Ea; simpl.
    + destruct (scan_batch n callbacks _) as [[f k] a] eqn:E.
      intros [= <- <- <-]. intros [->|Hin]%elem_of_cons.
      * by apply all_replicas_applied_Some.
      * destruct (IH _ _ _ _ E Hin) as (S & HS & Hn).
        apply lookup_delete_Some in HS as [_ HS]. eauto.
    + intros [= <- <- <-]. by intros ?%elem_of_nil.
Qed.

(** The scan stops in front of a callback whose set is not full. *)
Lemma scan_batch_kept_blocked n callbacks applied fired kept applied' :
  scan_batch n callbacks applied = (fired, kept, applied') →
  match kept with
  | [] => True
  | cb :: _ => all_replicas_applied n applied' cb = false
  end.
Proof.
  revert applied fired kept applied'.
  induction callbacks as [|c callbacks IH]; intros applied fired kept applied';
    simpl.
  - by intros [= <- <- <-].
  - destruct (all_replicas_applied n applied c) eqn:Ea; simpl.
    + destruct (scan_batch n callbacks _) as [[f k] a] eqn:E.
      intros [= <- <- <-]. by eapply IH.
    + by intros [= <- <- <-].
Qed.

(** ** The drain of the queue *)

(** The drain takes a prefix of the waiting callbacks, in queue order: what
    it invoked, followed by what still waits, is what waited before. *)
Lemma drain_split n queue applied fired queue' applied' :
  drain n queue applied = (fired, queue', applied') →
  concat (callbacks_ <$> queue) = fired ++ concat (callbacks_ <$> queue').
Proof.
  revert applied fired queue' applied'.
  induction queue as [|item queue IH]; intros applied fired queue' applied';
    simpl.
  - by intros [= <- <- <-].
  - destruct (has_records_ item); simpl.
    + destruct (scan_batch n (callbacks_ item) applied) as [[f0 k0] a0] eqn:Es.
      pose proof (scan_batch_split _ _ _ _ _ _ Es) as ->.
      destruct k0 as [|cb k0].
      * destruct (drain n queue a0) as [[f q] a] eqn:Ed.
        intros [= <- <- <-]. rewrite app_nil_r, <- app_assoc. f_equal.
        by eapply IH.
      * intros [= <- <- <-]. simpl. by rewrite <- app_assoc.
    + destruct (drain n queue applied) as [[f q] a] eqn:Ed.
      intros [= <- <- <-]. rewrite <- app_assoc. f_equal. by eapply IH.
Qed.

Lemma drain_subseteq n queue applied fired queue' applied' :
  drain n queue applied = (fired, queue', applied') →
  applied' ⊆ applied.
Proof.
  revert applied fired queue' applied'.
  induction queue as [|item queue IH]; intros applied fired queue' applied';
    simpl.
  - by intros [= <- <- <-].
  - destruct (has_records_ item); simpl.
    + destruct (scan_batch n (callbacks_ item) applied) as [[f0 k0] a0] eqn:Es.
      pose proof (scan_batch_subseteq _ _ _ _ _ _ Es) as Hsub.
      destruct k0 as [|cb k0].
      * destruct (drain n queue a0) as [[f q] a] eqn:Ed.
        intros [= <- <- <-]. etrans; [by eapply IH|done].
      * by intros [= <- <- <-].
    + destruct (drain n queue applied) as [[f q] a] eqn:Ed.
      intros [= <- <- <-]. by eapply IH.
Qed.

(** The batches the drain leaves in the queue keep their flag. *)
Lemma drain_has_records n queue applied fired queue' applied' :
  drain n queue applied = (fired, queue', applied') →
  Forall (fun b => has_records_ b = true) queue →
  Forall (fun b => has_records_ b = true) queue'.
Proof.
  revert applied fired queue' applied'.
  induction queue as [|item queue IH]; intros applied fired queue' applied';
    simpl.
  - by intros [= <- <- <-].
  - intros Hd [Hitem Hq]%Forall_cons. rewrite Hitem in Hd. simpl in Hd.
    destruct (scan_batch n (callbacks_ item) applied) as [[f0 k0] a0] eqn:Es.
    destruct k0 as [|cb k0].
    + destruct (drain n queue a0) as [[f q] a] eqn:Ed.
      simplify_eq. by eapply IH.
    + simplify_eq. by constructor.
Qed.

(** When every queued batch has records, every callback the drain invoked had
    a full set in the table the drain started from. *)
Lemma drain_fired_applied n queue applied fired queue' applied' cb :
  drain n queue applied = (fired, queue', applied') →
  Forall (fun b => has_records_ b = true) queue →
  cb ∈ fired →
  ∃ replicas, applied !! txn_start_time_ cb = Some replicas
              ∧ size replicas = n.
Proof.
  revert applied fired queue' applied'.
  induction queue as [|item queue IH]; intros applied fired queue' applied';
    simpl.
  - intros [= <- <- <-] _. by intros ?%elem_of_nil.
  - intros Hd [Hitem Hq]%Forall_cons. rewrite Hitem in Hd. simpl in Hd.
    destruct (scan_batch n (callbacks_ item) applied) as [[f0 k0] a0] eqn:Es.
    destruct k0 as [|c k0].
    + destruct (drain n queue a0) as [[f q] a] eqn:Ed.
      simplify_eq. intros [Hin|Hin]%elem_of_app.
      * by eapply scan_batch_fired_applied.
      * destruct (IH _ _ _ _ Ed Hq Hin) as (S & HS & Hn).
        exists S. split; [|done].
        eapply lookup_weaken; [exact HS|]. by eapply scan_batch_subseteq.
    + simplify_eq. intros Hin. by eapply scan_batch_fired_applied.
Qed.

(** The drain either empties the queue or stops in front of a callback whose
    set is not full. *)
Lemma drain_head_blocked n queue applied fired queue' applied' :
  drain n queue applied = (fired, queue', applied') →
  match queue' with
  | [] => True
  | b :: _ => ∃ cb rest, callbacks_ b = cb :: rest
                         ∧ all_replicas_applied n applied' cb = false
  end.
Proof.
  revert applied fired queue' applied'.
  induction queue as [|item queue IH]; intros applied fired queue' applied';
    simpl.
  - by intros [= <- <- <-].
  - destruct (has_records_ item); simpl.
    + destruct (scan_batch n (callbacks_ item) applied) as [[f0 k0] a0] eqn:Es.
      pose proof (scan_batch_kept_blocked _ _ _ _ _ _ Es) as Hb.
      destruct k0 as [|cb k0].
      * destruct (drain n queue a0) as [[f q] a] eqn:Ed.
        intros [= <- <- <-]. by eapply IH.
      * intros [= <- <- <-]. simpl. eauto.
    + destruct (drain n queue applied) as [[f q] a] eqn:Ed.
      intros [= <- <- <-]. by eapply IH.
Qed.

(** A drain that starts in front of a callback whose set is not full does
    nothing. *)
Lemma drain_blocked n queue applied :
  match queue with
  | [] => True
  | b :: _ => has_records_ b = true
              ∧ ∃ cb rest, callbacks_ b = cb :: rest
                           ∧ all_replicas_applied n applied cb = false
  end →
  drain n queue applied = ([], queue, applied).
Proof.
  destruct queue as [|b queue]; [done|].
  intros (Hb & cb & rest & Hcbs & Hblocked). simpl.
  rewrite Hb, Hcbs. simpl. rewrite Hblocked. simpl.
  destruct b as [cbs hr]. simpl in *. by subst.
Qed.

(** What a drain leaves behind, a second drain leaves as it is. *)
Lemma drain_again n queue applied fired queue' applied' :
  drain n queue applied = (fired, queue', applied') →
  drain n queue' applied' = ([], queue', applied').
Proof.
  revert applied fired queue' applied'.
  induction queue as [|item queue IH]; intros applied fired queue' applied';
    simpl.
  - by intros [= <- <- <-].
  - destruct (has_records_ item) eqn:Hitem; simpl.
    + destruct (scan_batch n (callbacks_ item) applied) as [[f0 k0] a0] eqn:Es.
      pose proof (scan_batch_kept_blocked _ _ _ _ _ _ Es) as Hblocked.
      destruct k0 as [|c k0].
      * destruct (drain n queue a0) as [[f q] a] eqn:Ed.
        intros [= <- <- <-]. by eapply IH.
      * intros [= <- <- <-]. simpl. by rewrite Hblocked.
    + destruct (drain n queue applied) as [[f q] a] eqn:Ed.
      intros [= <- <- <-]. by eapply IH.
Qed.

(** The batch a drain leaves at the front has records and starts with a
    callback whose set is not full. *)
Lemma drain_stops_blocked n queue applied fired queue' applied' :
  drain n queue applied = (fired, queue', applied') →
  match queue' with
  | [] => True
  | b :: _ =>
      has_records_ b = true
      ∧ ∃ cb rest, callbacks_ b = cb :: rest
                   ∧ all_replicas_applied n applied' cb = false
  end.
Proof.
  revert applied fired queue' applied'.
  induction queue as [|item queue IH]; intros applied fired queue' applied';
    simpl.
  - by intros [= <- <- <-].
  - destruct (has_records_ item) eqn:Hitem; simpl.
    + destruct (scan_batch n (callbacks_ item) applied) as [[f0 k0] a0] eqn:Es.
      pose proof (scan_batch_kept_blocked _ _ _ _ _ _ Es) as Hb.
      destruct k0 as [|cb k0].
      * destruct (drain n queue a0) as [[f q] a] eqn:Ed.
        intros [= <- <- <-]. by eapply IH.
      * intros [= <- <- <-]. simpl. eauto.
    + destruct (drain n queue applied) as [[f q] a] eqn:Ed.
      intros [= <- <- <-]. by eapply IH.
Qed.

(** ** Invariants of a run *)

Lemma run_snoc calls c s :
  run (calls ++ [c]) s = run calls s ≫= step c.
Proof.
  revert s. induction calls as [|c0 calls IH]; intros s; simpl.
  - by destruct (step c s).
  - destruct (step c0 s); [apply IH|done].
Qed.

Lemma submitted_app calls1 calls2 :
  submitted (calls1 ++ calls2) = submitted calls1 ++ submitted calls2.
Proof.
  induction calls1 as [|[rb cbs pol|r msg] calls1 IH]; simpl; [done| |done].
  by rewrite IH, app_assoc.
Qed.

Lemma enqueued_app calls1 calls2 :
  enqueued (calls1 ++ calls2) = enqueued calls1 ++ enqueued calls2.
Proof.
  induction calls1 as [|[rb cbs pol|r msg] calls1 IH]; simpl; [done| |done].
  by rewrite IH, app_assoc.
Qed.

Lemma notified_app_l calls1 calls2 r t :
  notified calls1 r t → notified (calls1 ++ calls2) r t.
Proof.
  intros (msg & Hin & Ht). exists msg. split; [|done].
  apply elem_of_app. by left.
Qed.

Lemma notified_snoc calls r msg :
  notified (calls ++ [CallHandle r msg]) r (GetAppliedTxnId msg).
Proof.
  exists msg. split; [|done]. apply elem_of_app. right. by apply list_elem_of_singleton.
Qed.

Lemma ledger_inv_initial replicas first_msg_id first_batch_id :
  ledger_inv replicas [] (initial_state replicas first_msg_id first_batch_id).
Proof.
  repeat split; simpl; try done.
  exists []. repeat split; try done. by intros cb ?%elem_of_nil.
Qed.

Lemma mark_applied_notified calls routing_id msg
    (applied : gmap N (gset string)) t (S : gset string) r :
  (∀ t (S : gset string) r, applied !! t = Some S → r ∈ S → notified calls r t) →
  mark_applied (GetAppliedTxnId msg) routing_id applied !! t = Some S →
  r ∈ S →
  notified (calls ++ [CallHandle routing_id msg]) r t.
Proof.
  intros Hinv. rewrite mark_applied_insert.
  destruct (decide (GetAppliedTxnId msg = t)) as [<-|Hne].
  - rewrite lookup_insert_eq. intros [= <-] [->%elem_of_singleton|Hr]%elem_of_union.
    + apply notified_snoc.
    + apply notified_app_l.
      destruct (applied !! GetAppliedTxnId msg) as [S0|] eqn:E; simpl in Hr.
      * by eapply Hinv.
      * by apply not_elem_of_empty in Hr.
  - rewrite lookup_insert_ne by done. intros HS Hr.
    apply notified_app_l. by eapply Hinv.
Qed.

Lemma ledger_inv_step replicas calls c s s' :
  ledger_inv replicas calls s →
  step c s = Some s' →
  ledger_inv replicas (calls ++ [c]) s'.
Proof.
  intros (Hrep & Hrec & Hperm & Htbl & released & Hrel & Hsub & Hfull).
  destruct c as [rb cbs pol|routing_id msg]; simpl.
  - intros (Hpol & Er & Et & Hcase)%ReplicateBatchOfRecords_ledger.
    unfold ledger_inv. rewrite submitted_app, enqueued_app. simpl. rewrite !app_nil_r.
    unfold queued in *.
    destruct (enqueues rb pol); destruct Hcase as [Ei Eq]; rewrite ?Ei, ?Eq.
    + repeat split.
      * congruence.
      * apply Forall_app. split; [done|]. by repeat constructor.
      * rewrite fmap_app, concat_app. simpl. rewrite app_nil_r, app_assoc.
        by rewrite Hperm.
      * intros t S r HS Hr. apply notified_app_l. rewrite Et in HS.
        by eapply Htbl.
      * exists released. repeat split.
        -- rewrite fmap_app, concat_app. simpl.
           by rewrite app_nil_r, app_assoc, Hrel.
        -- done.
        -- intros cb Hcb. destruct (Hfull cb Hcb) as (S & HS & Hn).
           exists S. split; [done|]. intros r Hr. apply notified_app_l. auto.
    + repeat split.
      * congruence.
      * done.
      * rewrite <- Hperm. rewrite <- !app_assoc. f_equiv. apply Permutation_app_comm.
      * intros t S r HS Hr. apply notified_app_l. rewrite Et in HS.
        by eapply Htbl.
      * exists released. repeat split.
        -- by rewrite app_nil_r.
        -- by apply sublist_inserts_r.
        -- intros cb Hcb. destruct (Hfull cb Hcb) as (S & HS & Hn).
           exists S. split; [done|]. intros r Hr. apply notified_app_l. auto.
  - intros [= <-]. unfold ledger_inv.
    rewrite submitted_app, enqueued_app. simpl. rewrite !app_nil_r.
    pose proof (Handle_ledger routing_id msg s) as [Er Hcase]. simpl in Hcase.
    pose proof (fun t S r =>
      mark_applied_notified calls routing_id msg
        (txns_applied_on_replicas_ s) t S r Htbl) as Hmark.
    destruct (bool_decide _).
    + destruct Hcase as (fired & queue' & applied' & Hd & Ei & Eq & Et).
      pose proof (drain_split _ _ _ _ _ _ Hd) as Hsplit.
      pose proof (drain_subseteq _ _ _ _ _ _ Hd) as Hsubm.
      unfold queued in *. rewrite Ei, Eq, Et.
      repeat split.
      * congruence.
      * by eapply drain_has_records.
      * rewrite <- Hperm, Hsplit. by rewrite <- app_assoc.
      * intros t S r HS Hr. eapply Hmark; [|done].
        by eapply lookup_weaken.
      * exists (released ++ fired). repeat split.
        -- by rewrite <- app_assoc, <- Hsplit.
        -- by apply sublist_app.
        -- intros cb [Hcb|Hcb]%elem_of_app.
           ++ destruct (Hfull cb Hcb) as (S & HS & Hn).
              exists S. split; [done|]. intros r Hr. apply notified_app_l. auto.
           ++ destruct (drain_fired_applied _ _ _ _ _ _ cb Hd Hrec Hcb)
                as (S & HS & Hn).
              exists S. split; [congruence|]. intros r Hr.
              by eapply Hmark.
    + destruct Hcase as (Ei & Eq & Et).
      unfold queued in *. rewrite Ei, Eq, Et.
      repeat split.
      * congruence.
      * done.
      * done.
      * intros t S r HS Hr. by eapply Hmark.
      * exists released. repeat split; [done|done|].
        intros cb Hcb. destruct (Hfull cb Hcb) as (S & HS & Hn).
        exists S. split; [done|]. intros r Hr. apply notified_app_l. auto.
Qed.

Lemma run_ledger_inv replicas first_msg_id first_batch_id calls s :
  run calls (initial_state replicas first_msg_id first_batch_id) = Some s →
  ledger_inv replicas calls s.
Proof.
  revert s. induction calls as [|c calls IH] using rev_ind; intros s.
  - intros [= <-]. apply ledger_inv_initial.
  - rewrite run_snoc.
    destruct (run calls _) as [s0|] eqn:E; [|done]. simpl.
    intros Hstep. eapply ledger_inv_step; [by apply IH|done].
Qed.

(** ** Batch identifiers *)

Lemma issued_batch_ids_succ n s :
  issued_batch_ids (N.succ n) s = issue_batch_id (issued_batch_ids n s).
Proof. apply N.iter_succ. Qed.

Lemma uint64_incr_small x :
  x + 1 < UINT64_MODULUS → uint64_incr x = x + 1.
Proof. intros. unfold uint64_incr. by apply N.mod_small. Qed.

Lemma uint64_incr_lt x : uint64_incr x < UINT64_MODULUS.
Proof. unfold uint64_incr. by apply N.mod_lt. Qed.

Lemma uint64_incr_neq x : x < UINT64_MODULUS → uint64_incr x ≠ x.
Proof.
  intros Hx. unfold uint64_incr.
  destruct (decide (x + 1 < UINT64_MODULUS)) as [H|H].
  - rewrite N.mod_small by done. lia.
  - assert (x + 1 = UINT64_MODULUS) as -> by lia.
    rewrite N.Div0.mod_same. unfold UINT64_MODULUS in *. lia.
Qed.

(** One call: the counter never comes to rest on the reserved value. *)
Lemma GetNextBatchId_spec s :
  (GetNextBatchId s).1 = next_batch_id_ s
  ∧ next_batch_id_ (GetNextBatchId s).2 ≠ INVALID_RECORD_BATCH_ID
  ∧ next_batch_id_ (GetNextBatchId s).2
    = (if N.eqb (uint64_incr (next_batch_id_ s)) INVALID_RECORD_BATCH_ID
       then uint64_incr (uint64_incr (next_batch_id_ s))
       else uint64_incr (next_batch_id_ s)).
Proof.
  unfold GetNextBatchId. simpl.
  destruct (N.eqb_spec (uint64_incr (next_batch_id_ s)) INVALID_RECORD_BATCH_ID)
    as [E|E]; simpl; repeat split; try done.
  rewrite <- E. apply uint64_incr_neq, uint64_incr_lt.
Qed.

(** The identifiers never include the reserved value, whatever the number of
    calls. *)
Lemma issued_batch_ids_valid n s :
  next_batch_id_ s ≠ INVALID_RECORD_BATCH_ID →
  Forall (fun id => id ≠ INVALID_RECORD_BATCH_ID) (issued_batch_ids n s).1
  ∧ next_batch_id_ (issued_batch_ids n s).2 ≠ INVALID_RECORD_BATCH_ID.
Proof.
  intros Hs. unfold issued_batch_ids.
  apply (N.iter_ind _ issue_batch_id ([], s)
           (fun _ acc => Forall (fun id => id ≠ INVALID_RECORD_BATCH_ID) acc.1
                         ∧ next_batch_id_ acc.2 ≠ INVALID_RECORD_BATCH_ID)).
  - by split.
  - intros _ [ids s0] [Hids Hs0]. unfold issue_batch_id. cbn [fst snd] in *.
    pose proof (GetNextBatchId_spec s0) as (Hid & Hne & _).
    destruct (GetNextBatchId s0) as [id s1]. cbn [fst snd] in *. subst id.
    split; [|done]. apply Forall_app. split; [done|]. by repeat constructor.
Qed.

(** While the counter has not wrapped it is known in closed form, and the
    identifiers issued so far are sorted and below it. *)
Lemma issued_batch_ids_no_wrap n s :
  next_batch_id_ s ≠ INVALID_RECORD_BATCH_ID →
  next_batch_id_ s + n + skipped (next_batch_id_ s) n < UINT64_MODULUS →
  next_batch_id_ (issued_batch_ids n s).2
  = next_batch_id_ s + n + skipped (next_batch_id_ s) n
  ∧ StronglySorted N.lt (issued_batch_ids n s).1
  ∧ Forall (fun id => id < next_batch_id_ (issued_batch_ids n s).2)
      (issued_batch_ids n s).1.
Proof.
  intros Hs. set (c := next_batch_id_ s) in *.
  induction n as [|n IH] using N.peano_ind.
  - intros _. unfold issued_batch_ids, skipped. simpl. fold c.
    split; [|split; constructor].
    destruct (N.ltb_spec c INVALID_RECORD_BATCH_ID),
             (N.leb_spec INVALID_RECORD_BATCH_ID (c + 0)); simpl; lia.
  - intros Hb.
    assert (Hmono : skipped c n ≤ skipped c (N.succ n)).
    { unfold skipped.
      destruct (N.ltb_spec c INVALID_RECORD_BATCH_ID),
               (N.leb_spec INVALID_RECORD_BATCH_ID (c + n)),
               (N.leb_spec INVALID_RECORD_BATCH_ID (c + N.succ n));
        simpl; lia. }
    destruct IH as (Hv & Hsorted & Hbelow); [lia|].
    rewrite issued_batch_ids_succ. unfold issue_batch_id.
    destruct (issued_batch_ids n s) as [ids s0]. cbn [fst snd] in *.
    pose proof (GetNextBatchId_spec s0) as (Hid & _ & Hnext).
    destruct (GetNextBatchId s0) as [id s1]. cbn [fst snd] in *. subst id.
    assert (Hincr : uint64_incr (next_batch_id_ s0) = next_batch_id_ s0 + 1)
      by (apply uint64_incr_small; lia).
    rewrite Hincr in Hnext.
    assert (Hv1 : next_batch_id_ s1 = c + N.succ n + skipped c (N.succ n)).
    { rewrite Hnext.
      destruct (N.eqb_spec (next_batch_id_ s0 + 1) INVALID_RECORD_BATCH_ID)
        as [E|E].
      - assert (Hsk : skipped c n = 0 ∧ skipped c (N.succ n) = 1).
        { unfold skipped in *.
          destruct (N.ltb_spec c INVALID_RECORD_BATCH_ID),
                   (N.leb_spec INVALID_RECORD_BATCH_ID (c + n)),
                   (N.leb_spec INVALID_RECORD_BATCH_ID (c + N.succ n));
            cbn [andb] in *; lia. }
        destruct Hsk as [Hk0 Hk1]. rewrite Hk0 in *. rewrite Hk1 in *.
        rewrite uint64_incr_small by lia. lia.
      - assert (Hsk : skipped c (N.succ n) = skipped c n).
        { unfold skipped in *.
          destruct (N.ltb_spec c INVALID_RECORD_BATCH_ID),
                   (N.leb_spec INVALID_RECORD_BATCH_ID (c + n)),
                   (N.leb_spec INVALID_RECORD_BATCH_ID (c + N.succ n));
            cbn [andb] in *; lia. }
        rewrite Hsk. lia. }
    split; [done|]. split.
    + apply StronglySorted_app. split; [|split; [done|]].
      * intros x1 x2 Hx1 ->%list_elem_of_singleton.
        by eapply (proj1 (Forall_forall _ _)) in Hbelow.
      * by repeat constructor.
    + apply Forall_app. split.
      * eapply Forall_impl; [exact Hbelow|]. simpl. intros x Hx. lia.
      * repeat constructor. lia.
Qed.

(** The first identifier returned is the value the counter started with. *)
Lemma issued_batch_ids_first n s :
  0 < n → next_batch_id_ s ∈ (issued_batch_ids n s).1.
Proof.
  induction n as [|n IH] using N.peano_ind; [lia|]. intros _.
  rewrite issued_batch_ids_succ. unfold issue_batch_id.
  destruct (N.eq_dec n 0) as [->|Hn].
  - unfold issued_batch_ids. cbn [N.iter fst snd].
    pose proof (GetNextBatchId_spec s) as (Hid & _).
    destruct (GetNextBatchId s) as [id s1]. cbn [fst snd] in *. subst id.
    apply elem_of_app. right. by left.
  - destruct (issued_batch_ids n s) as [ids s0]. cbn [fst snd] in *.
    destruct (GetNextBatchId s0) as [id s1]. cbn [fst snd].
    apply elem_of_app. left. apply IH. lia.
Qed.

Lemma skipped_le_1 c k : skipped c k ≤ 1.
Proof. unfold skipped. destruct (_ && _); lia. Qed.

(** C6 (as amended): the batch identifiers returned by successive calls of
    [GetNextBatchId] never equal the reserved value, whatever the number of
    calls, and a call whose increment lands on the reserved value steps over
    it; as long as the 64-bit counter has not wrapped around (the counter
    value at the first call plus the number of calls stays below [2^64]) the
    identifiers are strictly increasing, hence never reused. *)
Theorem GetNextBatchId_ids_increasing_until_wrap n s :
  next_batch_id_ s ≠ INVALID_RECORD_BATCH_ID →
  Forall (fun id => id ≠ INVALID_RECORD_BATCH_ID) (issued_batch_ids n s).1
  ∧ next_batch_id_ (issued_batch_ids n s).2 ≠ INVALID_RECORD_BATCH_ID
  ∧ (uint64_incr (next_batch_id_ s) = INVALID_RECORD_BATCH_ID →
     next_batch_id_ (GetNextBatchId s).2
     = uint64_incr INVALID_RECORD_BATCH_ID)
  ∧ (next_batch_id_ s + n < UINT64_MODULUS →
     StronglySorted N.lt (issued_batch_ids n s).1
     ∧ NoDup (issued_batch_ids n s).1).
Proof.
  intros Hs.
  destruct (issued_batch_ids_valid n s Hs) as [Hvalid Hrest].
  split; [done|]. split; [done|]. split.
  - intros E. pose proof (GetNextBatchId_spec s) as (_ & _ & ->).
    rewrite E. by rewrite N.eqb_refl.
  - intros Hb.
    assert (Hsorted : StronglySorted N.lt (issued_batch_ids n s).1).
    { destruct n as [|p] using N.peano_ind; [constructor|].
      clear IHp. pose proof (skipped_le_1 (next_batch_id_ s) p).
      destruct (issued_batch_ids_no_wrap p s Hs) as (Hv & Hsorted & Hbelow);
        [lia|].
      rewrite issued_batch_ids_succ. unfold issue_batch_id.
      destruct (issued_batch_ids p s) as [ids s0]. cbn [fst snd] in *.
      pose proof (GetNextBatchId_spec s0) as (Hid & _).
      destruct (GetNextBatchId s0) as [id s1]. cbn [fst snd] in *. subst id.
      apply StronglySorted_app. split; [|split; [done|]].
      - intros x1 x2 Hx1 ->%list_elem_of_singleton.
        by eapply (proj1 (Forall_forall _ _)) in Hbelow.
      - by repeat constructor. }
    split; [done|].
    clear -Hsorted. induction Hsorted as [|x l Hl IH Hx]; constructor; [|done].
    intros Hin. eapply (proj1 (Forall_forall _ _)) in Hx; [|exact Hin]. lia.
Qed.

(** ** Entry-point contract and the immediate path *)

(** With any policy but [DISABLE] the assertion holds and the call
    returns. *)
Lemma ReplicateBatchOfRecords_returns records_batch commit_callbacks policy s :
  policy ≠ DISABLE →
  is_Some (ReplicateBatchOfRecords records_batch commit_callbacks policy s).
Proof.
  intros Hpol. unfold ReplicateBatchOfRecords, NOISEPAGE_ASSERT.
  rewrite (bool_decide_eq_false_2 _ Hpol). cbn [negb].
  destruct records_batch as [records|]; [|by eexists].
  destruct (GetNextMessageId _) as [msg_id s2].
  destruct (GetNextBatchId s2) as [batch_id s3]. by eexists.
Qed.

(** C8: calling [ReplicateBatchOfRecords] with policy [DISABLE] fails the
    assertion at the entry of the function, whatever the other arguments and
    the state; with any other policy the assertion holds and the call
    returns. *)
Theorem ReplicateBatchOfRecords_asserts_not_DISABLE
    records_batch commit_callbacks policy s :
  ReplicateBatchOfRecords records_batch commit_callbacks policy s = None
  ↔ policy = DISABLE.
Proof.
  split.
  - intros Hnone. destruct (decide (policy = DISABLE)) as [|Hpol]; [done|].
    destruct (ReplicateBatchOfRecords_returns records_batch commit_callbacks
                policy s Hpol) as [s' Hs'].
    congruence.
  - by intros ->.
Qed.

(** C3: a call of [ReplicateBatchOfRecords] with policy [ASYNC], or with a
    null record batch, has invoked every supplied callback exactly once and
    in the order supplied when it returns, and has left the queue of the
    ledger as it was (without a record batch it has sent nothing either); the
    call does return unless the policy is [DISABLE], which the entry
    assertion forbids. *)
Theorem ReplicateBatchOfRecords_invokes_immediately
    records_batch commit_callbacks policy s :
  policy = ASYNC ∨ records_batch = None →
  (∀ s', ReplicateBatchOfRecords records_batch commit_callbacks policy s
         = Some s' →
         invoked_ s' = invoked_ s ++ commit_callbacks
         ∧ txn_callbacks_ s' = txn_callbacks_ s
         ∧ txns_applied_on_replicas_ s' = txns_applied_on_replicas_ s
         ∧ (records_batch = None → sent_ s' = sent_ s))
  ∧ (policy ≠ DISABLE →
     is_Some (ReplicateBatchOfRecords records_batch commit_callbacks policy s)).
Proof.
  intros Hnow. split; [|apply ReplicateBatchOfRecords_returns].
  intros s' Hcall.
  pose proof (ReplicateBatchOfRecords_ledger _ _ _ _ _ Hcall)
    as (Hpol & _ & Et & Hcase).
  assert (enqueues records_batch policy = false) as Hq.
  { unfold enqueues. destruct Hnow as [->| ->]; [done|].
    rewrite (bool_decide_eq_false_2 (is_Some None)) by (by intros [? ?]).
    by rewrite orb_true_r. }
  rewrite Hq in Hcase. destruct Hcase as [Ei Eq].
  repeat split; try done.
  intros ->. revert Hcall.
  unfold ReplicateBatchOfRecords, NOISEPAGE_ASSERT.
  rewrite (bool_decide_eq_false_2 _ Hpol). cbn [negb].
  rewrite (bool_decide_eq_false_2 (is_Some None)) by (by intros [? ?]).
  rewrite orb_true_r. intros [= <-]. apply invoke_all_fields.
Qed.

(** ** The no-records branch of the drain *)

Lemma visits_no_records_branch_false n queue applied :
  Forall (fun b => has_records_ b = true) queue →
  visits_no_records_branch n queue applied = false.
Proof.
  revert applied. induction queue as [|item queue IH]; intros applied; [done|].
  intros [Hitem Hq]%Forall_cons. simpl. rewrite Hitem. simpl.
  destruct (scan_batch n (callbacks_ item) applied) as [[f0 [|c k0]] a0];
    [by apply IH|done].
Qed.

(** C9: in every state reached by a run from the initial state, every batch
    in the queue has [has_records_] true, so a drain started in such a state,
    with whatever table, never enters the branch for batches without
    records. *)
Theorem queued_batches_have_records
    replicas first_msg_id first_batch_id calls s :
  run calls (initial_state replicas first_msg_id first_batch_id) = Some s →
  Forall (fun b => has_records_ b = true) (txn_callbacks_ s)
  ∧ ∀ applied,
      visits_no_records_branch (size (replicas_ s)) (txn_callbacks_ s) applied
      = false.
Proof.
  intros Hrun. apply run_ledger_inv in Hrun as (_ & Hrec & _).
  split; [done|]. intros applied. by apply visits_no_records_branch_false.
Qed.

(** ** The frame of [Handle] *)

(** C10: when the insertion made by [Handle] does not bring the applied-set
    of the transaction to the size of the replica set, [Handle] does nothing
    but send the acknowledgement and add the sender to that set: the queue and
    the invocation log are unchanged. *)
Theorem Handle_below_replica_count routing_id msg s :
  size ({[routing_id]}
        ∪ default ∅ (txns_applied_on_replicas_ s !! GetAppliedTxnId msg))
  ≠ size (replicas_ s) →
  Handle routing_id msg s
  = set_txns_applied
      (<[GetAppliedTxnId msg :=
           {[routing_id]}
           ∪ default ∅ (txns_applied_on_replicas_ s !! GetAppliedTxnId msg)]>
         (txns_applied_on_replicas_ s))
      (SendAckForMessage routing_id msg s)
  ∧ txn_callbacks_ (Handle routing_id msg s) = txn_callbacks_ s
  ∧ invoked_ (Handle routing_id msg s) = invoked_ s
  ∧ sent_ (Handle routing_id msg s)
    = sent_ s ++ [(routing_id, AckMsg (next_msg_id_ s) (GetMessageId msg))].
Proof.
  intros Hsize.
  assert (Handle routing_id msg s
          = set_txns_applied
              (<[GetAppliedTxnId msg :=
                   {[routing_id]}
                   ∪ default ∅
                       (txns_applied_on_replicas_ s !! GetAppliedTxnId msg)]>
                 (txns_applied_on_replicas_ s))
              (SendAckForMessage routing_id msg s)) as ->.
  { unfold Handle. cbn zeta.
    assert (txns_applied_on_replicas_ (SendAckForMessage routing_id msg s)
            = txns_applied_on_replicas_ s) as -> by done.
    rewrite mark_applied_insert.
    rewrite bool_decide_eq_false_2; [done|].
    cbn [txns_applied_on_replicas_ set_txns_applied replicas_].
    rewrite lookup_insert_eq. done. }
  done.
Qed.

(** ** The size of the applied-sets *)

Lemma senders_configured_notified replicas calls r t :
  senders_configured replicas calls → notified calls r t → r ∈ replicas.
Proof.
  intros Hconf (msg & Hin & _).
  by eapply (proj1 (Forall_forall _ _)) in Hconf; [|exact Hin].
Qed.

(** C7 (as amended): in every state reached by a run in which every
    applied-notification comes from a configured replica, the set recorded
    for any transaction holds configured replicas only, so its size is at
    most the number of configured replicas. *)
Theorem applied_set_size_bounded
    replicas first_msg_id first_batch_id calls s t (S : gset string) :
  run calls (initial_state replicas first_msg_id first_batch_id) = Some s →
  senders_configured replicas calls →
  txns_applied_on_replicas_ s !! t = Some S →
  S ⊆ replicas ∧ (size S ≤ size replicas)%nat.
Proof.
  intros Hrun Hconf HS.
  apply run_ledger_inv in Hrun as (_ & _ & _ & Htbl & _).
  assert (S ⊆ replicas) as Hsub.
  { intros r Hr. eapply senders_configured_notified; [done|].
    by eapply Htbl. }
  split; [done|]. by apply subseteq_size.
Qed.

(** ** Order in a list without duplicates *)

Lemma NoDup_split_unique {A} (x : A) l1 l2 m1 m2 :
  NoDup (l1 ++ x :: l2) → l1 ++ x :: l2 = m1 ++ x :: m2 → l1 = m1.
Proof.
  revert m1. induction l1 as [|y l1 IH]; intros m1 Hnd Heq.
  - destruct m1 as [|z m1]; [done|]. simpl in *. simplify_eq.
    apply NoDup_cons in Hnd as [Hnotin _]. destruct Hnotin.
    apply elem_of_app. right. by left.
  - destruct m1 as [|z m1]; simpl in *; simplify_eq.
    + apply NoDup_cons in Hnd as [Hnotin _]. destruct Hnotin.
      apply elem_of_app. right. by left.
    + f_equal. apply IH; [|done]. by apply NoDup_cons in Hnd as [_ ?].
Qed.

Lemma before_sublist {A} (a b : A) l1 l2 :
  l1 `sublist_of` l2 → before a b l1 → before a b l2.
Proof.
  intros Hsub (x & y & z & ->).
  apply sublist_app_l in Hsub as (k1 & k2 & -> & _ & Hsub).
  apply sublist_cons_l in Hsub as (k3 & k4 & -> & Hsub).
  apply sublist_app_l in Hsub as (k5 & k6 & -> & _ & Hsub).
  apply sublist_cons_l in Hsub as (k7 & k8 & -> & _).
  exists (k1 ++ k3), (k5 ++ k7), k8. by rewrite <- !app_assoc.
Qed.

Lemma before_NoDup_split {A} (a b : A) l l1 l2 :
  NoDup l → l = l1 ++ b :: l2 → before a b l → a ∈ l1.
Proof.
  intros Hnd -> (x & y & z & Heq).
  assert (l1 = x ++ a :: y) as ->.
  { eapply NoDup_split_unique; [done|]. rewrite Heq.
    by rewrite <- app_assoc. }
  apply elem_of_app. right. by left.
Qed.

Lemma before_app_l_inv {A} (a b : A) l k :
  NoDup (l ++ k) → before a b (l ++ k) → b ∈ l → before a b l.
Proof.
  intros Hnd (x & y & z & Heq) (p & q & ->)%list_elem_of_split.
  assert (p = x ++ a :: y) as ->.
  { eapply (NoDup_split_unique b _ (q ++ k)).
    - by rewrite <- app_assoc in Hnd.
    - rewrite <- app_assoc in Heq. simpl in Heq. rewrite Heq.
      by rewrite <- app_assoc. }
  exists x, y, q. by rewrite <- app_assoc.
Qed.

Lemma enqueued_before c1 c2 c3 rbA A polA rbB B polB a b :
  enqueues rbA polA = true → enqueues rbB polB = true →
  a ∈ A → b ∈ B →
  before a b
    (enqueued (c1 ++ CallReplicate rbA A polA
                  :: c2 ++ CallReplicate rbB B polB :: c3)).
Proof.
  intros HA HB (A1 & A2 & ->)%list_elem_of_split
    (B1 & B2 & ->)%list_elem_of_split.
  rewrite enqueued_app. simpl. rewrite HA, enqueued_app. simpl. rewrite HB.
  exists (enqueued c1 ++ A1), (A2 ++ enqueued c2 ++ B1), (B2 ++ enqueued c3).
  by rewrite <- !app_assoc.
Qed.

Lemma submitted_elem_of calls rb cbs pol cb :
  CallReplicate rb cbs pol ∈ calls → cb ∈ cbs → cb ∈ submitted calls.
Proof.
  intros (c1 & c2 & ->)%list_elem_of_split Hcb.
  rewrite submitted_app. simpl. rewrite !elem_of_app. auto.
Qed.

Lemma enqueued_elem_of calls rb cbs pol cb :
  CallReplicate rb cbs pol ∈ calls → enqueues rb pol = true →
  cb ∈ cbs → cb ∈ enqueued calls.
Proof.
  intros (c1 & c2 & ->)%list_elem_of_split Hq Hcb.
  rewrite enqueued_app. simpl. rewrite Hq, !elem_of_app. auto.
Qed.

(** ** Consequences of the invariant when the callbacks are distinct *)

Lemma ledger_inv_NoDup replicas calls s :
  ledger_inv replicas calls s →
  NoDup (submitted calls) →
  NoDup (invoked_ s) ∧ NoDup (queued s)
  ∧ ∀ cb, cb ∈ invoked_ s → cb ∉ queued s.
Proof.
  intros (_ & _ & Hperm & _) Hnd. rewrite <- Hperm in Hnd.
  by apply NoDup_app in Hnd as (? & ? & ?).
Qed.

(** An invoked callback that went through the queue is among the released
    ones. *)
Lemma ledger_inv_released replicas calls s :
  ledger_inv replicas calls s →
  NoDup (submitted calls) →
  ∃ released,
    released ++ queued s = enqueued calls
    ∧ released `sublist_of` invoked_ s
    ∧ (∀ cb, cb ∈ released →
         ∃ S : gset string,
           size S = size replicas
           ∧ ∀ r, r ∈ S → notified calls r (txn_start_time_ cb))
    ∧ ∀ cb, cb ∈ enqueued calls → cb ∈ invoked_ s → cb ∈ released.
Proof.
  intros Hinv Hnd.
  destruct (ledger_inv_NoDup _ _ _ Hinv Hnd) as (_ & _ & Hdisj).
  destruct Hinv as (_ & _ & _ & _ & released & Hrel & Hsub & Hfull).
  exists released. repeat split; try done.
  intros cb Hcb Hinvoked. rewrite <- Hrel in Hcb.
  apply elem_of_app in Hcb as [?|Hq]; [done|]. by destruct (Hdisj cb).
Qed.

(** ** Synchronous batches *)

(** C1 (as amended): no callback is invoked more often than it was
    submitted, so when the submitted callbacks are pairwise distinct no
    callback is invoked twice; and, provided every applied-notification
    handled comes from a configured replica, a callback of a batch submitted
    with policy [SYNC] and a record batch is invoked only after every
    configured replica has sent an applied-notification for the transaction
    of that callback. *)
Theorem sync_callback_waits_for_every_replica
    replicas first_msg_id first_batch_id calls s :
  run calls (initial_state replicas first_msg_id first_batch_id) = Some s →
  invoked_ s ⊆+ submitted calls
  ∧ (NoDup (submitted calls) →
     NoDup (invoked_ s)
     ∧ (senders_configured replicas calls →
        ∀ records commit_callbacks cb,
          CallReplicate (Some records) commit_callbacks SYNC ∈ calls →
          cb ∈ commit_callbacks →
          cb ∈ invoked_ s →
          ∀ r, r ∈ replicas → notified calls r (txn_start_time_ cb))).
Proof.
  intros Hrun. pose proof (run_ledger_inv _ _ _ _ _ Hrun) as Hinv.
  split.
  - destruct Hinv as (_ & _ & Hperm & _).
    rewrite <- Hperm. apply submseteq_inserts_r. done.
  - intros Hnd.
    destruct (ledger_inv_NoDup _ _ _ Hinv Hnd) as (Hndi & _ & _).
    split; [done|].
    intros Hconf records cbs cb Hcall Hcb Hinvoked r Hr.
    destruct (ledger_inv_released _ _ _ Hinv Hnd)
      as (released & _ & _ & Hfull & Hin).
    destruct (Hfull cb) as (S & Hsize & Hnot).
    { apply Hin; [|done]. by eapply enqueued_elem_of. }
    assert (S ⊆ replicas) as Hsub.
    { intros r' Hr'. eapply senders_configured_notified; [done|]. eauto. }
    assert (S = replicas) as ->.
    { apply set_eq. intros x. split; [by apply Hsub|]. intros Hx.
      destruct (decide (x ∈ S)) as [|Hnx]; [done|].
      assert (S ⊂ replicas) as Hstrict.
      { split; [done|]. intros Hrev. apply Hnx. by apply Hrev. }
      apply subset_size in Hstrict. lia. }
    by apply Hnot.
Qed.

(** C2: when batch A was enqueued before batch B, every callback of A is
    invoked before any callback of B (the submitted callbacks being pairwise
    distinct, so that the batch of an invocation is known): in the invocation
    log every callback of B is preceded by all the callbacks of A.  The drain
    never looks ahead and stops at the first callback whose set is not
    complete: what [Handle] invokes is a prefix of the waiting callbacks, in
    queue order, each with a set as large as the replica set; when the first
    waiting callback has no such set after the insertion, [Handle] invokes
    nothing and leaves the queue as it is, whatever the sets of the
    callbacks behind it; and where a drain ran, it left the queue empty or
    stuck in front of a callback whose set is not complete. *)
Theorem head_of_line_blocking
    replicas first_msg_id first_batch_id calls s
    c1 c2 c3 recordsA A recordsB B :
  run calls (initial_state replicas first_msg_id first_batch_id) = Some s →
  NoDup (submitted calls) →
  calls = c1 ++ CallReplicate (Some recordsA) A SYNC
             :: c2 ++ CallReplicate (Some recordsB) B SYNC :: c3 →
  (∀ a b l1 l2, a ∈ A → b ∈ B → invoked_ s = l1 ++ b :: l2 → a ∈ l1)
  ∧ ∀ routing_id msg,
      let applied :=
        mark_applied (GetAppliedTxnId msg) routing_id
          (txns_applied_on_replicas_ s) in
      (∃ fired,
         invoked_ (Handle routing_id msg s) = invoked_ s ++ fired
         ∧ queued s = fired ++ queued (Handle routing_id msg s)
         ∧ ∀ cb, cb ∈ fired →
             all_replicas_applied (size (replicas_ s)) applied cb = true)
      ∧ (∀ b rest cb more,
           txn_callbacks_ s = b :: rest →
           callbacks_ b = cb :: more →
           all_replicas_applied (size (replicas_ s)) applied cb = false →
           invoked_ (Handle routing_id msg s) = invoked_ s
           ∧ txn_callbacks_ (Handle routing_id msg s) = txn_callbacks_ s)
      ∧ (size (default ∅ (applied !! GetAppliedTxnId msg))
         = size (replicas_ s) →
         head_blocked (Handle routing_id msg s)).
Proof.
  intros Hrun Hnd Hcalls. pose proof (run_ledger_inv _ _ _ _ _ Hrun) as Hinv.
  split.
  - intros a b l1 l2 Ha Hb Hlog.
    destruct (ledger_inv_NoDup _ _ _ Hinv Hnd) as (Hndi & Hndq & Hdisj).
    destruct (ledger_inv_released _ _ _ Hinv Hnd)
      as (released & Hrel & Hsub & _ & Hin).
    assert (Hbefore : before a b (enqueued calls)).
    { rewrite Hcalls. by apply enqueued_before. }
    assert (Hb_rel : b ∈ released).
    { apply Hin.
      - rewrite Hcalls, enqueued_app. simpl. rewrite enqueued_app. simpl.
        rewrite !elem_of_app. auto.
      - rewrite Hlog. apply elem_of_app. right. by left. }
    assert (Hnd_enq : NoDup (released ++ queued s)).
    { apply NoDup_app. split; [by apply (sublist_NoDup _ _ Hndi)|].
      split; [|done]. intros x Hx. apply Hdisj.
      by eapply elem_of_sublist. }
    rewrite <- Hrel in Hbefore.
    eapply before_app_l_inv in Hbefore; [|done..].
    eapply before_NoDup_split; [exact Hndi|exact Hlog|].
    by eapply before_sublist.
  - intros routing_id msg applied.
    destruct Hinv as (_ & Hrec & _).
    pose proof (Handle_ledger routing_id msg s) as [Er Hcase].
    cbv zeta in Hcase. fold applied in Hcase.
    destruct (bool_decide_reflect
                (size (default ∅ (applied !! GetAppliedTxnId msg))
                 = size (replicas_ s))) as [Hfull|Hfull].
    + destruct Hcase as (fired & queue' & applied' & Hd & Ei & Eq & Et).
      split; [|split].
      * exists fired. split; [done|]. split.
        -- unfold queued. rewrite Eq. by eapply drain_split.
        -- intros cb Hcb. apply all_replicas_applied_Some.
           by eapply drain_fired_applied.
      * intros b rest cb more Hqueue Hcbs Hblocked.
        rewrite Hqueue in Hd, Hrec.
        apply Forall_cons in Hrec as [Hb _].
        rewrite drain_blocked in Hd by eauto 6.
        simplify_eq. rewrite Ei, app_nil_r. by rewrite Hqueue.
      * intros _. unfold head_blocked. rewrite Eq, Et, Er.
        by eapply drain_stops_blocked.
    + destruct Hcase as (Ei & Eq & _).
      split; [|split].
      * exists []. rewrite app_nil_r. split; [done|]. split.
        -- unfold queued. by rewrite Eq.
        -- by intros cb ?%elem_of_nil.
      * done.
      * done.
Qed.

(** ** Which batches the drain pops *)

(** The drain pops whole batches from the front, each with all its callbacks
    invoked, and then either finds the queue empty or leaves one batch at the
    front, with the callbacks it could not invoke yet. *)
Lemma drain_shape n queue applied fired queue' applied' :
  drain n queue applied = (fired, queue', applied') →
  (queue' = [] ∧ fired = concat (callbacks_ <$> queue))
  ∨ ∃ popped item rest done kept,
      queue = popped ++ item :: rest
      ∧ callbacks_ item = done ++ kept
      ∧ kept ≠ []
      ∧ queue' = {| callbacks_ := kept; has_records_ := has_records_ item |}
                 :: rest
      ∧ fired = concat (callbacks_ <$> popped) ++ done.
Proof.
  revert applied fired queue' applied'.
  induction queue as [|item queue IH]; intros applied fired queue' applied';
    simpl.
  - intros [= <- <- <-]. by left.
  - destruct (has_records_ item) eqn:Hitem; simpl.
    + destruct (scan_batch n (callbacks_ item) applied) as [[f0 k0] a0] eqn:Es.
      pose proof (scan_batch_split _ _ _ _ _ _ Es) as Hsplit.
      destruct k0 as [|cb k0].
      * destruct (drain n queue a0) as [[f q] a] eqn:Ed.
        intros [= <- <- <-]. rewrite app_nil_r in Hsplit.
        destruct (IH _ _ _ _ Ed)
          as [[-> ->]|(popped & it & rest & done & kept
                       & -> & Hit & Hk & -> & ->)].
        -- left. by rewrite Hsplit.
        -- right. exists (item :: popped), it, rest, done, kept.
           repeat split; try done. simpl. by rewrite Hsplit, <- app_assoc.
      * intros [= <- <- <-]. right.
        exists [], item, queue, f0, (cb :: k0). rewrite Hitem.
        by repeat split.
    + destruct (drain n queue applied) as [[f q] a] eqn:Ed.
      intros [= <- <- <-].
      destruct (IH _ _ _ _ Ed)
        as [[-> ->]|(popped & it & rest & done & kept
                     & -> & Hit & Hk & -> & ->)].
      * by left.
      * right. exists (item :: popped), it, rest, done, kept.
        repeat split; try done. simpl. by rewrite <- app_assoc.
Qed.

(** C4 (as amended): in every state reached by a run, a batch is popped from
    the queue only when all its callbacks have been invoked, and only
    [Handle] pops; after [Handle] either the queue is empty and everything
    that waited was invoked, or some whole batches were popped with all their
    callbacks invoked and the next batch stays at the front, with the
    callbacks invoked so far erased from it and the batches behind it
    untouched.  A batch still in the queue therefore holds only callbacks
    that have not been invoked (the submitted callbacks being pairwise
    distinct). *)
Theorem batch_popped_only_when_exhausted
    replicas first_msg_id first_batch_id calls s :
  run calls (initial_state replicas first_msg_id first_batch_id) = Some s →
  (∀ routing_id msg,
     let s' := Handle routing_id msg s in
     (txn_callbacks_ s' = [] ∧ invoked_ s' = invoked_ s ++ queued s)
     ∨ ∃ popped item rest done kept,
         txn_callbacks_ s = popped ++ item :: rest
         ∧ callbacks_ item = done ++ kept
         ∧ txn_callbacks_ s'
           = {| callbacks_ := kept; has_records_ := true |} :: rest
         ∧ invoked_ s'
           = invoked_ s ++ concat (callbacks_ <$> popped) ++ done)
  ∧ (∀ records_batch commit_callbacks policy s',
       ReplicateBatchOfRecords records_batch commit_callbacks policy s
       = Some s' →
       ∃ pushed, txn_callbacks_ s' = txn_callbacks_ s ++ pushed)
  ∧ (NoDup (submitted calls) → ∀ cb, cb ∈ queued s → cb ∉ invoked_ s).
Proof.
  intros Hrun. pose proof (run_ledger_inv _ _ _ _ _ Hrun) as Hinv.
  split; [|split].
  - intros routing_id msg s'. subst s'.
    destruct Hinv as (_ & Hrec & _).
    pose proof (Handle_ledger routing_id msg s) as [_ Hcase].
    simpl in Hcase. destruct (bool_decide _).
    + destruct Hcase as (fired & queue' & applied' & Hd & Ei & Eq & _).
      rewrite Ei, Eq.
      destruct (drain_shape _ _ _ _ _ _ Hd)
        as [[-> ->]|(popped & item & rest & done & kept
                     & Hq & Hit & _ & -> & ->)].
      * by left.
      * right. exists popped, item, rest, done, kept.
        repeat split; try done. do 2 f_equal.
        rewrite Hq in Hrec. apply Forall_app in Hrec as [_ Hrec].
        by apply Forall_cons in Hrec as [-> _].
    + destruct Hcase as (Ei & Eq & _). rewrite Ei, Eq.
      destruct (txn_callbacks_ s) as [|item rest] eqn:Hqueue.
      * left. unfold queued. rewrite Hqueue. simpl. by rewrite app_nil_r.
      * right. exists [], item, rest, [], (callbacks_ item).
        apply Forall_cons in Hrec as [Hitem _].
        repeat split; simpl; try done.
        -- destruct item. simpl in *. by subst.
        -- by rewrite app_nil_r.
  - intros rb cbs pol s' Hcall.
    apply ReplicateBatchOfRecords_ledger in Hcall as (_ & _ & _ & Hcase).
    destruct (enqueues rb pol); destruct Hcase as [_ ->]; eauto.
    exists []. by rewrite app_nil_r.
  - intros Hnd cb Hq Hi.
    destruct (ledger_inv_NoDup _ _ _ Hinv Hnd) as (_ & _ & Hdisj).
    by destruct (Hdisj cb).
Qed.

(** ** Duplicate applied-notifications *)

Lemma mark_applied_idemp txn_id routing_id (applied : gmap N (gset string)) :
  mark_applied txn_id routing_id (mark_applied txn_id routing_id applied)
  = mark_applied txn_id routing_id applied.
Proof.
  rewrite !mark_applied_insert, lookup_insert_eq, insert_insert_eq. simpl.
  f_equal. apply set_eq. intros x. rewrite !elem_of_union. tauto.
Qed.

Lemma all_replicas_applied_insert_ne n (applied : gmap N (gset string)) t S cb :
  txn_start_time_ cb ≠ t →
  all_replicas_applied n (<[t := S]> applied) cb
  = all_replicas_applied n applied cb.
Proof.
  intros Hne. unfold all_replicas_applied. by rewrite lookup_insert_ne.
Qed.

(** The scan does not look at the entry of a transaction that has no callback
    in the batch. *)
Lemma scan_batch_frame n callbacks (applied : gmap N (gset string)) t S :
  (∀ cb, cb ∈ callbacks → txn_start_time_ cb ≠ t) →
  scan_batch n callbacks (<[t := S]> applied)
  = let '(fired, kept, applied') := scan_batch n callbacks applied in
    (fired, kept, <[t := S]> applied').
Proof.
  revert applied. induction callbacks as [|cb callbacks IH]; intros applied Hne;
    simpl; [done|].
  rewrite all_replicas_applied_insert_ne by (apply Hne; by left).
  destruct (all_replicas_applied n applied cb); simpl; [|done].
  rewrite delete_insert_ne by (apply Hne; by left).
  rewrite IH by (intros c Hc; apply Hne; by right).
  by destruct (scan_batch n callbacks _) as [[f k] a].
Qed.

(** Nor does the drain: it proceeds as if the entry were not there, and
    leaves it in the table. *)
Lemma drain_frame n queue (applied : gmap N (gset string)) t S :
  (∀ cb, cb ∈ concat (callbacks_ <$> queue) → txn_start_time_ cb ≠ t) →
  drain n queue (<[t := S]> applied)
  = let '(fired, queue', applied') := drain n queue applied in
    (fired, queue', <[t := S]> applied').
Proof.
  revert applied. induction queue as [|item queue IH]; intros applied Hne;
    simpl; [done|].
  simpl in Hne.
  assert (Hne1 : ∀ cb, cb ∈ callbacks_ item → txn_start_time_ cb ≠ t).
  { intros cb Hcb. apply Hne, elem_of_app. by left. }
  assert (Hne2 : ∀ cb, cb ∈ concat (callbacks_ <$> queue) →
                       txn_start_time_ cb ≠ t).
  { intros cb Hcb. apply Hne, elem_of_app. by right. }
  destruct (has_records_ item); simpl.
  - rewrite scan_batch_frame by done.
    destruct (scan_batch n (callbacks_ item) applied) as [[f0 k0] a0].
    destruct k0 as [|cb k0]; [|done].
    rewrite IH by done. by destruct (drain n queue a0) as [[f q] a].
  - rewrite IH by done. by destruct (drain n queue applied) as [[f q] a].
Qed.





(** * Further properties of the manager *)

(** ** What goes over the wire *)

Lemma invoke_all_wire callbacks s :
  next_msg_id_ (invoke_all callbacks s) = next_msg_id_ s
  ∧ next_batch_id_ (invoke_all callbacks s) = next_batch_id_ s
  ∧ empty_buffer_queue_ (invoke_all callbacks s) = empty_buffer_queue_ s
  ∧ sent_ (invoke_all callbacks s) = sent_ s
  ∧ replicas_ (invoke_all callbacks s) = replicas_ s.
Proof.
  unfold invoke_all. revert s.
  induction callbacks as [|cb callbacks IH]; intros s; simpl; [done|].
  by destruct (IH (invoke cb s)) as (-> & -> & -> & -> & ->).
Qed.

Lemma send_all_wire msg destinations s :
  let s' := foldl (fun acc replica => Send replica msg acc) s destinations in
  next_msg_id_ s' = next_msg_id_ s
  ∧ next_batch_id_ s' = next_batch_id_ s
  ∧ empty_buffer_queue_ s' = empty_buffer_queue_ s
  ∧ sent_ s' = sent_ s ++ ((fun d => (d, msg)) <$> destinations)
  ∧ replicas_ s' = replicas_ s.
Proof.
  revert s. induction destinations as [|d destinations IH]; intros s; simpl.
  - by rewrite app_nil_r.
  - destruct (IH (Send d msg s)) as (-> & -> & -> & -> & ->).
    simpl. by rewrite <- app_assoc.
Qed.

(** Everything [ReplicateBatchOfRecords] does besides the ledger. *)
Lemma ReplicateBatchOfRecords_wire records_batch commit_callbacks policy s s' :
  ReplicateBatchOfRecords records_batch commit_callbacks policy s = Some s' →
  match records_batch with
  | None =>
      sent_ s' = sent_ s
      ∧ next_msg_id_ s' = next_msg_id_ s
      ∧ next_batch_id_ s' = next_batch_id_ s
      ∧ empty_buffer_queue_ s' = empty_buffer_queue_ s
  | Some records =>
      sent_ s'
      = sent_ s
          ++ ((fun d => (d, RecordsBatchMsg (next_msg_id_ s)
                              (next_batch_id_ s) records))
                <$> elements (replicas_ s))
      ∧ next_msg_id_ s' = uint64_incr (next_msg_id_ s)
      ∧ next_batch_id_ s' = next_batch_id_ (GetNextBatchId s).2
      ∧ empty_buffer_queue_ s'
        = empty_buffer_queue_ s
            ++ (if MarkSerialized records then [records] else [])
  end.
Proof.
  unfold ReplicateBatchOfRecords, NOISEPAGE_ASSERT.
  destruct (decide (policy = DISABLE)) as [->|Hpol]; [done|].
  rewrite (bool_decide_eq_false_2 _ Hpol). cbn [negb].
  set (has_records := bool_decide (is_Some records_batch)).
  set (s1 := if bool_decide (policy = ASYNC) || negb has_records
             then invoke_all commit_callbacks s
             else set_txn_callbacks (_ ++ _) s).
  assert (Hs1 : next_msg_id_ s1 = next_msg_id_ s
                ∧ next_batch_id_ s1 = next_batch_id_ s
                ∧ empty_buffer_queue_ s1 = empty_buffer_queue_ s
                ∧ sent_ s1 = sent_ s ∧ replicas_ s1 = replicas_ s).
  { subst s1. destruct (_ || _); [apply invoke_all_wire|done]. }
  destruct Hs1 as (Em & Eb & Eq & Es & Er).
  destruct records_batch as [records|].
  - destruct (GetNextMessageId s1) as [msg_id s2] eqn:E2.
    destruct (GetNextBatchId s2) as [batch_id s3] eqn:E3.
    unfold GetNextMessageId in E2. injection E2 as <- <-.
    assert (Hs3 : batch_id = next_batch_id_ s
                  ∧ next_msg_id_ s3 = uint64_incr (next_msg_id_ s)
                  ∧ next_batch_id_ s3 = next_batch_id_ (GetNextBatchId s).2
                  ∧ empty_buffer_queue_ s3 = empty_buffer_queue_ s
                  ∧ sent_ s3 = sent_ s ∧ replicas_ s3 = replicas_ s).
    { unfold GetNextBatchId in E3 |- *. injection E3 as <- <-.
      cbn [next_batch_id_ set_next_batch_id set_next_msg_id snd].
      rewrite Eb, Em.
      by destruct (N.eqb _ _). }
    destruct Hs3 as (-> & Em3 & Eb3 & Eq3 & Es3 & Er3).
    pose proof (send_all_wire
                  (RecordsBatchMsg (next_msg_id_ s1) (next_batch_id_ s) records)
                  (elements (replicas_ s3)) s3) as Hsend.
    cbv zeta in Hsend. destruct Hsend as (Em4 & Eb4 & Eq4 & Es4 & _).
    intros [= <-]. rewrite Em, Er3, Es3, Em3, Eb3, Eq3 in *.
    destruct (MarkSerialized records); cbn;
      rewrite ?Em4, ?Eb4, ?Eq4, ?Es4, ?app_nil_r; done.
  - by intros [= <-].
Qed.

(** Everything [Handle] does besides the ledger: one acknowledgement goes to
    the sender; the batch counter and the buffer pool are left alone. *)
Lemma Handle_wire routing_id msg s :
  sent_ (Handle routing_id msg s)
  = sent_ s ++ [(routing_id, AckMsg (next_msg_id_ s) (GetMessageId msg))]
  ∧ next_batch_id_ (Handle routing_id msg s) = next_batch_id_ s
  ∧ empty_buffer_queue_ (Handle routing_id msg s) = empty_buffer_queue_ s.
Proof.
  unfold Handle, SendAckForMessage. cbn zeta.
  cbn [GetNextMessageId]. 
  match goal with |- context [bool_decide ?P] => destruct (bool_decide P) end;
    [|done].
  unfold ProcessTxnCallbacks.
  destruct (drain _ _ _) as [[fired queue'] applied'].
  cbn [sent_ next_batch_id_ empty_buffer_queue_ set_txns_applied
       set_txn_callbacks].
  match goal with
  | |- context [invoke_all fired ?s0] =>
      pose proof (invoke_all_wire fired s0) as (_ & -> & -> & -> & _)
  end.
  done.
Qed.

(** X1: a call of [ReplicateBatchOfRecords] that carries a record batch
    sends one and the same records-batch message, labelled with the batch
    identifier the counter held, to every configured replica exactly once and
    to nobody else, whatever the policy; afterwards the buffer is in the pool
    of empty buffers exactly when [MarkSerialized] said so. *)
Theorem ReplicateBatchOfRecords_broadcasts
    records commit_callbacks policy s s' :
  ReplicateBatchOfRecords (Some records) commit_callbacks policy s = Some s' →
  ∃ msg_id destinations,
    sent_ s'
    = sent_ s
        ++ ((fun d => (d, RecordsBatchMsg msg_id (next_batch_id_ s) records))
              <$> destinations)
    ∧ NoDup destinations
    ∧ (∀ r, r ∈ destinations ↔ r ∈ replicas_ s)
    ∧ empty_buffer_queue_ s'
      = empty_buffer_queue_ s
          ++ (if MarkSerialized records then [records] else []).
Proof.
  intros Hcall. apply ReplicateBatchOfRecords_wire in Hcall
    as (Hsent & _ & _ & Hpool).
  exists (next_msg_id_ s), (elements (replicas_ s)).
  split; [done|]. split; [apply NoDup_elements|]. split; [|done].
  intros r. apply elem_of_elements.
Qed.

(** X2: a call of [ReplicateBatchOfRecords] without record batch sends
    nothing, consumes neither a message nor a batch identifier and leaves the
    pool of empty buffers alone. *)
Theorem ReplicateBatchOfRecords_without_records_is_silent
    commit_callbacks policy s s' :
  ReplicateBatchOfRecords None commit_callbacks policy s = Some s' →
  sent_ s' = sent_ s
  ∧ next_msg_id_ s' = next_msg_id_ s
  ∧ next_batch_id_ s' = next_batch_id_ s
  ∧ empty_buffer_queue_ s' = empty_buffer_queue_ s.
Proof. apply ReplicateBatchOfRecords_wire. Qed.

(** ** Batch identifiers over a run *)

Lemma records_calls_snoc calls c :
  records_calls (calls ++ [c])
  = match c with
    | CallReplicate (Some _) _ _ => N.succ (records_calls calls)
    | _ => records_calls calls
    end.
Proof.
  induction calls as [|[[rb|] cbs pol|r msg] calls IH]; simpl.
  - by destruct c as [[?|] ? ?|? ?].
  - rewrite IH. by destruct c as [[?|] ? ?|? ?].
  - done.
  - done.
Qed.

Lemma batch_ids_to_app r sent1 sent2 :
  batch_ids_to r (sent1 ++ sent2) = batch_ids_to r sent1 ++ batch_ids_to r sent2.
Proof. apply omap_app. Qed.

Lemma batch_ids_to_cons_batch r d msg_id batch_id records sent :
  batch_ids_to r ((d, RecordsBatchMsg msg_id batch_id records) :: sent)
  = (if decide (d = r) then [batch_id] else []) ++ batch_ids_to r sent.
Proof. unfold batch_ids_to. simpl. by destruct (decide (d = r)). Qed.

(** Among the messages of one broadcast, a destination finds its own. *)
Lemma batch_ids_to_broadcast r msg_id batch_id records destinations :
  NoDup destinations →
  batch_ids_to r
    ((fun d => (d, RecordsBatchMsg msg_id batch_id records)) <$> destinations)
  = if decide (r ∈ destinations) then [batch_id] else [].
Proof.
  induction destinations as [|d destinations IH]; [done|].
  intros [Hd Hnd]%NoDup_cons.
  rewrite fmap_cons, batch_ids_to_cons_batch, (IH Hnd).
  destruct (decide (d = r)) as [->|Hne].
  - destruct (decide (r ∈ destinations)) as [|_]; [done|].
    destruct (decide (r ∈ r :: destinations)) as [|Hnot]; [done|].
    destruct Hnot. by left.
  - destruct (decide (r ∈ destinations)) as [Hin|Hnin];
      destruct (decide (r ∈ d :: destinations)) as [Hin'|Hnin']; try done.
    + destruct Hnin'. by right.
    + apply elem_of_cons in Hin' as [->|?]; done.
Qed.

Lemma sent_batch_ids_valid_app sent1 sent2 :
  sent_batch_ids_valid (sent1 ++ sent2)
  ↔ sent_batch_ids_valid sent1 ∧ sent_batch_ids_valid sent2.
Proof. apply Forall_app. Qed.

(** X3: if the counter starts at a value other than the reserved one, then
    after every run it holds a value other than the reserved one, and no
    record batch was ever sent under the reserved identifier. *)
Theorem run_never_sends_reserved_batch_id
    replicas first_msg_id first_batch_id calls s :
  first_batch_id ≠ INVALID_RECORD_BATCH_ID →
  run calls (initial_state replicas first_msg_id first_batch_id) = Some s →
  next_batch_id_ s ≠ INVALID_RECORD_BATCH_ID
  ∧ sent_batch_ids_valid (sent_ s).
Proof.
  intros Hfirst. revert s.
  induction calls as [|c calls IH] using rev_ind; intros s.
  - intros [= <-]. split; [done|]. constructor.
  - rewrite run_snoc.
    destruct (run calls _) as [s0|] eqn:E; [|done]. simpl.
    destruct (IH s0 eq_refl) as [Hnext Hsent].
    destruct c as [rb cbs pol|routing_id msg]; simpl.
    + intros Hcall. apply ReplicateBatchOfRecords_wire in Hcall.
      destruct rb as [records|].
      * destruct Hcall as (-> & _ & -> & _).
        split; [apply GetNextBatchId_spec|].
        apply sent_batch_ids_valid_app. split; [done|].
        apply Forall_fmap, Forall_forall. by intros d _.
      * destruct Hcall as (-> & _ & -> & _). done.
    + intros [= <-].
      destruct (Handle_wire routing_id msg s0) as (-> & -> & _).
      split; [done|]. apply sent_batch_ids_valid_app. split; [done|].
      by repeat constructor.
Qed.

(** While the counter has not wrapped, the identifiers issued are sorted. *)
Lemma issued_batch_ids_sorted n s :
  next_batch_id_ s ≠ INVALID_RECORD_BATCH_ID →
  next_batch_id_ s + n < UINT64_MODULUS →
  StronglySorted N.lt (issued_batch_ids n s).1.
Proof.
  intros Hs Hb.
  destruct n as [|p] using N.peano_ind; [constructor|].
  clear IHp. pose proof (skipped_le_1 (next_batch_id_ s) p).
  destruct (issued_batch_ids_no_wrap p s Hs) as (Hv & Hsorted & Hbelow);
    [lia|].
  rewrite issued_batch_ids_succ. unfold issue_batch_id.
  destruct (issued_batch_ids p s) as [ids s0]. cbn [fst snd] in *.
  pose proof (GetNextBatchId_spec s0) as (Hid & _).
  destruct (GetNextBatchId s0) as [id s1]. cbn [fst snd] in *. subst id.
  apply StronglySorted_app. split; [|split; [done|]].
  - intros x1 x2 Hx1 ->%list_elem_of_singleton.
    by eapply (proj1 (Forall_forall _ _)) in Hbelow.
  - by repeat constructor.
Qed.

(** The batch counter and the identifiers a replica was sent depend on the
    number of record batches of the run only. *)
Lemma run_batch_ids replicas first_msg_id first_batch_id calls s :
  run calls (initial_state replicas first_msg_id first_batch_id) = Some s →
  let issued :=
    issued_batch_ids (records_calls calls)
      (initial_state replicas first_msg_id first_batch_id) in
  replicas_ s = replicas
  ∧ next_batch_id_ s = next_batch_id_ issued.2
  ∧ ∀ r, r ∈ replicas → batch_ids_to r (sent_ s) = issued.1.
Proof.
  revert s. induction calls as [|c calls IH] using rev_ind; intros s.
  - intros [= <-]. done.
  - rewrite run_snoc.
    destruct (run calls _) as [s0|] eqn:E; [|done]. simpl.
    destruct (IH s0 eq_refl) as (Hrep & Hnext & Hids).
    rewrite records_calls_snoc.
    destruct c as [rb cbs pol|routing_id msg]; simpl.
    + intros Hcall.
      pose proof (ReplicateBatchOfRecords_ledger _ _ _ _ _ Hcall)
        as (_ & Er & _).
      apply ReplicateBatchOfRecords_wire in Hcall.
      destruct rb as [records|].
      * destruct Hcall as (Hsent & _ & Hcounter & _).
        rewrite issued_batch_ids_succ. unfold issue_batch_id.
        destruct (issued_batch_ids (records_calls calls) _) as [ids sk].
        cbn [fst snd] in *.
        pose proof (GetNextBatchId_spec sk) as (Hid & _ & Hk).
        pose proof (GetNextBatchId_spec s0) as (_ & _ & H0).
        destruct (GetNextBatchId sk) as [id sk']. cbn [fst snd] in *.
        subst id. split; [congruence|]. split.
        -- rewrite Hcounter, H0, Hk, Hnext. done.
        -- intros r Hr. rewrite Hsent, batch_ids_to_app, (Hids r Hr).
           rewrite batch_ids_to_broadcast by apply NoDup_elements.
           rewrite decide_True by (rewrite elem_of_elements; congruence).
           by rewrite Hnext.
      * destruct Hcall as (-> & _ & -> & _). split; [congruence|]. done.
    + intros [= <-].
      destruct (Handle_wire routing_id msg s0) as (-> & -> & _).
      pose proof (Handle_ledger routing_id msg s0) as [-> _].
      split; [done|]. split; [done|].
      intros r Hr. rewrite batch_ids_to_app, (Hids r Hr).
      unfold batch_ids_to. simpl. by rewrite app_nil_r.
Qed.

(** X4: over a run, a configured replica is sent exactly the batch
    identifiers that successive calls of [GetNextBatchId] issue, one per call
    that carries a record batch and in that order; none is the reserved
    value when the counter did not start there, and as long as the 64-bit
    counter has not wrapped they are strictly increasing. *)
Theorem replica_receives_increasing_batch_ids
    replicas first_msg_id first_batch_id calls s r :
  run calls (initial_state replicas first_msg_id first_batch_id) = Some s →
  r ∈ replicas →
  batch_ids_to r (sent_ s)
  = (issued_batch_ids (records_calls calls)
       (initial_state replicas first_msg_id first_batch_id)).1
  ∧ (first_batch_id ≠ INVALID_RECORD_BATCH_ID →
     Forall (fun id => id ≠ INVALID_RECORD_BATCH_ID)
       (batch_ids_to r (sent_ s))
     ∧ (first_batch_id + records_calls calls < UINT64_MODULUS →
        StronglySorted N.lt (batch_ids_to r (sent_ s)))).
Proof.
  intros Hrun Hr.
  destruct (run_batch_ids _ _ _ _ _ Hrun) as (_ & _ & Hids).
  rewrite (Hids r Hr). split; [done|]. intros Hfirst. split.
  - by apply issued_batch_ids_valid.
  - intros Hb. by apply issued_batch_ids_sorted.
Qed.

(** ** More about the ledger over a run *)

Lemma immediate_app calls1 calls2 :
  immediate (calls1 ++ calls2) = immediate calls1 ++ immediate calls2.
Proof.
  induction calls1 as [|[rb cbs pol|r msg] calls1 IH]; simpl; [done| |done].
  by rewrite IH, app_assoc.
Qed.

(** X5: no callback is lost or made up.  After every run the callbacks
    invoked so far together with the callbacks still queued are exactly the
    callbacks submitted, each as often as it was submitted; and the queue
    holds, in the order of enqueueing, what is left of the enqueued callbacks
    after a prefix of them was invoked in that same order. *)
Theorem callbacks_conserved replicas first_msg_id first_batch_id calls s :
  run calls (initial_state replicas first_msg_id first_batch_id) = Some s →
  invoked_ s ++ queued s ≡ₚ submitted calls
  ∧ ∃ released,
      released ++ queued s = enqueued calls
      ∧ released `sublist_of` invoked_ s.
Proof.
  intros Hrun. apply run_ledger_inv in Hrun
    as (_ & _ & Hperm & _ & released & Hrel & Hsub & _).
  split; [done|]. by exists released.
Qed.

(** X6: with an empty replica set [Handle] never drains the queue (the set
    of a transaction is never empty after the insertion, so its size never
    equals zero): after every run the invoked callbacks are those of the
    calls that bypass the queue, and everything enqueued is still waiting,
    in order. *)
Theorem no_replicas_no_release first_msg_id first_batch_id calls s :
  run calls (initial_state ∅ first_msg_id first_batch_id) = Some s →
  invoked_ s = immediate calls ∧ queued s = enqueued calls.
Proof.
  revert s. induction calls as [|c calls IH] using rev_ind; intros s.
  - by intros [= <-].
  - rewrite run_snoc.
    destruct (run calls _) as [s0|] eqn:E; [|done]. simpl.
    destruct (IH s0 eq_refl) as (Hlog & Hqueue).
    pose proof (run_ledger_inv _ _ _ _ _ E) as (Hrep & _).
    rewrite immediate_app, enqueued_app.
    destruct c as [rb cbs pol|routing_id msg]; simpl; rewrite !app_nil_r.
    + intros (_ & _ & _ & Hcase)%ReplicateBatchOfRecords_ledger.
      unfold queued in *.
      destruct (enqueues rb pol); destruct Hcase as [-> ->].
      * rewrite app_nil_r, fmap_app, concat_app. simpl.
        rewrite app_nil_r. by rewrite Hqueue.
      * rewrite app_nil_r. by rewrite Hlog.
    + intros [= <-].
      pose proof (Handle_ledger routing_id msg s0) as [_ Hcase].
      cbv zeta in Hcase.
      rewrite mark_applied_insert, lookup_insert_eq in Hcase.
      rewrite bool_decide_eq_false_2 in Hcase.
      * destruct Hcase as (-> & Eq & _). unfold queued in *.
        by rewrite Eq.
      * rewrite Hrep, size_empty. simpl. apply size_non_empty_iff.
        intros Hempty. apply (not_elem_of_empty (C := gset string) routing_id).
        rewrite <- (leibniz_equiv _ _ Hempty).
        apply elem_of_union. left. by apply elem_of_singleton.
Qed.

(** ** When the drain releases *)

Lemma scan_batch_fired_erased n callbacks applied fired kept applied' cb :
  scan_batch n callbacks applied = (fired, kept, applied') →
  cb ∈ fired → applied' !! txn_start_time_ cb = None.
Proof.
  revert applied fired kept applied'.
  induction callbacks as [|c callbacks IH]; intros applied fired kept applied';
    simpl.
  - intros [= <- <- <-]. by intros ?%elem_of_nil.
  - destruct (all_replicas_applied n applied c) eqn:Ea; simpl.
    + destruct (scan_batch n callbacks _) as [[f k] a] eqn:E.
      intros [= <- <- <-]. intros [->|Hin]%elem_of_cons.
      * eapply lookup_weaken_None; [|by eapply scan_batch_subseteq].
        apply lookup_delete_eq.
      * by eapply IH.
    + intros [= <- <- <-]. by intros ?%elem_of_nil.
Qed.

Lemma drain_fired_erased n queue applied fired queue' applied' cb :
  drain n queue applied = (fired, queue', applied') →
  Forall (fun b => has_records_ b = true) queue →
  cb ∈ fired → applied' !! txn_start_time_ cb = None.
Proof.
  revert applied fired queue' applied'.
  induction queue as [|item queue IH]; intros applied fired queue' applied';
    simpl.
  - intros [= <- <- <-] _. by intros ?%elem_of_nil.
  - intros Hd [Hitem Hq]%Forall_cons. rewrite Hitem in Hd. simpl in Hd.
    destruct (scan_batch n (callbacks_ item) applied) as [[f0 k0] a0] eqn:Es.
    destruct k0 as [|c k0].
    + destruct (drain n queue a0) as [[f q] a] eqn:Ed.
      simplify_eq. intros [Hin|Hin]%elem_of_app.
      * eapply lookup_weaken_None; [|by eapply drain_subseteq].
        by eapply scan_batch_fired_erased.
      * by eapply IH.
    + simplify_eq. intros Hin. by eapply scan_batch_fired_erased.
Qed.

(** X7: in every state reached by a run, each callback that [Handle] invokes
    has the entry of its transaction erased from the table by the time
    [Handle] returns. *)
Theorem Handle_erases_entries_of_invoked
    replicas first_msg_id first_batch_id calls s routing_id msg :
  run calls (initial_state replicas first_msg_id first_batch_id) = Some s →
  ∃ fired,
    invoked_ (Handle routing_id msg s) = invoked_ s ++ fired
    ∧ ∀ cb, cb ∈ fired →
        txns_applied_on_replicas_ (Handle routing_id msg s)
        !! txn_start_time_ cb = None.
Proof.
  intros Hrun. apply run_ledger_inv in Hrun as (_ & Hrec & _).
  pose proof (Handle_ledger routing_id msg s) as [_ Hcase].
  cbv zeta in Hcase. destruct (bool_decide _).
  - destruct Hcase as (fired & queue' & applied' & Hd & Ei & _ & Et).
    exists fired. split; [done|]. intros cb Hcb. rewrite Et.
    by eapply drain_fired_erased.
  - destruct Hcase as (Ei & _). exists []. rewrite app_nil_r.
    split; [done|]. by intros cb ?%elem_of_nil.
Qed.

(** A drain that starts in front of a callback whose set is full invokes
    that callback first and erases the entry. *)
Lemma drain_head_fires n b rest applied cb more fired queue' applied' :
  has_records_ b = true →
  callbacks_ b = cb :: more →
  all_replicas_applied n applied cb = true →
  drain n (b :: rest) applied = (fired, queue', applied') →
  (∃ fired', fired = cb :: fired')
  ∧ applied' !! txn_start_time_ cb = None.
Proof.
  intros Hb Hcbs Happlied. simpl. rewrite Hb, Hcbs. simpl.
  rewrite Happlied. simpl.
  destruct (scan_batch n more _) as [[f0 k0] a0] eqn:Es.
  assert (a0 !! txn_start_time_ cb = None) as Hnone.
  { eapply lookup_weaken_None; [|by eapply scan_batch_subseteq].
    apply lookup_delete_eq. }
  destruct k0 as [|c k0].
  - destruct (drain n rest a0) as [[f q] a] eqn:Ed.
    intros [= <- <- <-]. split; [by eexists|].
    eapply lookup_weaken_None; [exact Hnone|by eapply drain_subseteq].
  - intros [= <- <- <-]. split; [by eexists|done].
Qed.

(** X8: the applied-notification that brings the set of the transaction of
    the first waiting callback to the size of the replica set makes [Handle]
    invoke that callback, before any other, and erase the entry of the
    transaction. *)
Theorem Handle_releases_completed_head routing_id msg s b rest cb more :
  txn_callbacks_ s = b :: rest →
  has_records_ b = true →
  callbacks_ b = cb :: more →
  txn_start_time_ cb = GetAppliedTxnId msg →
  size ({[routing_id]}
        ∪ default ∅ (txns_applied_on_replicas_ s !! GetAppliedTxnId msg))
  = size (replicas_ s) →
  (∃ fired', invoked_ (Handle routing_id msg s) = invoked_ s ++ cb :: fired')
  ∧ txns_applied_on_replicas_ (Handle routing_id msg s)
    !! GetAppliedTxnId msg = None.
Proof.
  intros Hqueue Hb Hcbs Htxn Hsize.
  pose proof (Handle_ledger routing_id msg s) as [_ Hcase].
  cbv zeta in Hcase.
  rewrite mark_applied_insert, lookup_insert_eq in Hcase. simpl in Hcase.
  rewrite (bool_decide_eq_true_2 _ Hsize) in Hcase.
  destruct Hcase as (fired & queue' & applied' & Hd & Ei & _ & Et).
  rewrite Hqueue in Hd.
  eapply drain_head_fires in Hd as [[fired' Hfired] Hnone]; [|done..|].
  - rewrite Ei, Hfired, Et, <- Htxn. split; [by exists fired'|done].
  - apply all_replicas_applied_Some. eexists. split; [|exact Hsize].
    by rewrite Htxn, lookup_insert_eq.
Qed.

Lemma ProcessTxnCallbacks_drain s fired queue' applied' :
  drain (size (replicas_ s)) (txn_callbacks_ s) (txns_applied_on_replicas_ s)
  = (fired, queue', applied') →
  ProcessTxnCallbacks s
  = set_txns_applied applied' (set_txn_callbacks queue' (invoke_all fired s)).
Proof. intros Hd. unfold ProcessTxnCallbacks. by rewrite Hd. Qed.

(** X9: [ProcessTxnCallbacks] is idempotent: run a second time right after
    the first, it finds nothing to invoke and changes nothing. *)
Theorem ProcessTxnCallbacks_idempotent s :
  ProcessTxnCallbacks (ProcessTxnCallbacks s) = ProcessTxnCallbacks s.
Proof.
  destruct (drain (size (replicas_ s)) (txn_callbacks_ s)
              (txns_applied_on_replicas_ s))
    as [[fired queue'] applied'] eqn:Hd.
  rewrite (ProcessTxnCallbacks_drain s _ _ _ Hd).
  apply drain_again in Hd.
  rewrite (ProcessTxnCallbacks_drain _ [] queue' applied'); [reflexivity|].
  cbn [replicas_ txn_callbacks_ txns_applied_on_replicas_ set_txns_applied
       set_txn_callbacks].
  destruct (invoke_all_fields fired s) as (_ & -> & _). exact Hd.
Qed.

(** When the transactions of the callbacks are pairwise distinct and each
    has a full set, the scan invokes the whole batch; entries of other
    transactions are left alone. *)
Lemma scan_batch_all n callbacks (applied : gmap N (gset string)) :
  NoDup (txn_start_time_ <$> callbacks) →
  (∀ cb, cb ∈ callbacks → all_replicas_applied n applied cb = true) →
  ∃ applied',
    scan_batch n callbacks applied = (callbacks, [], applied')
    ∧ ∀ t, t ∉ txn_start_time_ <$> callbacks → applied' !! t = applied !! t.
Proof.
  revert applied.
  induction callbacks as [|cb callbacks IH]; intros applied Hnd Hall.
  - by exists applied.
  - apply NoDup_cons in Hnd as [Hcb Hnd]. simpl.
    rewrite Hall by (by left). simpl.
    destruct (IH (delete (txn_start_time_ cb) applied) Hnd)
      as (applied' & -> & Hother).
    { intros c Hc. rewrite <- (Hall c) by (by right).
      unfold all_replicas_applied. rewrite lookup_delete_ne; [done|].
      intros Heq. apply Hcb. rewrite Heq. by apply list_elem_of_fmap_2. }
    exists applied'. split; [done|].
    intros t Ht. rewrite Hother.
    + apply lookup_delete_ne. intros <-. apply Ht. by left.
    + intros Hin. apply Ht. by right.
Qed.

Lemma drain_all n queue (applied : gmap N (gset string)) :
  NoDup (txn_start_time_ <$> concat (callbacks_ <$> queue)) →
  (∀ cb, cb ∈ concat (callbacks_ <$> queue) →
         all_replicas_applied n applied cb = true) →
  ∃ applied',
    drain n queue applied = (concat (callbacks_ <$> queue), [], applied').
Proof.
  revert applied.
  induction queue as [|item queue IH]; intros applied Hnd Hall.
  - by exists applied.
  - simpl in *. rewrite fmap_app in Hnd.
    apply NoDup_app in Hnd as (Hnd1 & Hdisj & Hnd2).
    destruct (has_records_ item); simpl.
    + destruct (scan_batch_all n (callbacks_ item) applied Hnd1)
        as (a0 & -> & Hother).
      { intros cb Hcb. apply Hall, elem_of_app. by left. }
      destruct (IH a0 Hnd2) as (applied' & ->).
      { intros cb Hcb. rewrite <- (Hall cb) by (apply elem_of_app; by right).
        unfold all_replicas_applied. rewrite Hother; [done|].
        intros Hin. apply (Hdisj _ Hin). by apply list_elem_of_fmap_2. }
      by exists applied'.
    + destruct (IH applied Hnd2) as (applied' & ->).
      { intros cb Hcb. apply Hall, elem_of_app. by right. }
      by exists applied'.
Qed.

(** X10: when the waiting callbacks belong to pairwise distinct transactions
    and every one of these has a set as large as the replica set,
    [ProcessTxnCallbacks] invokes all the waiting callbacks, in queue order,
    and empties the queue. *)
Theorem ProcessTxnCallbacks_releases_everything s :
  NoDup (txn_start_time_ <$> queued s) →
  (∀ cb, cb ∈ queued s →
         all_replicas_applied (size (replicas_ s))
           (txns_applied_on_replicas_ s) cb = true) →
  invoked_ (ProcessTxnCallbacks s) = invoked_ s ++ queued s
  ∧ txn_callbacks_ (ProcessTxnCallbacks s) = [].
Proof.
  intros Hnd Hall. unfold ProcessTxnCallbacks.
  destruct (drain_all _ _ _ Hnd Hall) as (applied' & ->).
  cbn [invoked_ txn_callbacks_ set_txns_applied set_txn_callbacks].
  by rewrite invoked_invoke_all.
Qed.

(** X11: an applied-notification for a transaction that no queued callback
    waits for (the transaction of an [ASYNC] batch, for one) leaves an entry
    for it in the table, holding the sender and whoever was recorded before:
    the drain, if one runs, does not erase it. *)
Theorem Handle_keeps_entry_nobody_waits_for routing_id msg s :
  (∀ cb, cb ∈ queued s → txn_start_time_ cb ≠ GetAppliedTxnId msg) →
  txns_applied_on_replicas_ (Handle routing_id msg s) !! GetAppliedTxnId msg
  = Some ({[routing_id]}
          ∪ default ∅ (txns_applied_on_replicas_ s !! GetAppliedTxnId msg)).
Proof.
  intros Hother.
  pose proof (Handle_ledger routing_id msg s) as [_ Hcase].
  cbv zeta in Hcase. rewrite mark_applied_insert in Hcase.
  destruct (bool_decide _).
  - destruct Hcase as (fired & queue' & applied' & Hd & _ & _ & ->).
    rewrite drain_frame in Hd by done.
    destruct (drain _ _ (txns_applied_on_replicas_ s)) as [[f q] a].
    simplify_eq. apply lookup_insert_eq.
  - destruct Hcase as (_ & _ & ->). apply lookup_insert_eq.
Qed.

(** X12: [ProcessTxnCallbacks] releases as much as the front of the queue
    allows: when it returns, the queue is empty, or the batch at its front
    has records, is not empty, and starts with a callback whose transaction
    has no set as large as the replica set. *)
Theorem ProcessTxnCallbacks_stops_at_blocked_head s :
  head_blocked (ProcessTxnCallbacks s).
Proof.
  destruct (drain (size (replicas_ s)) (txn_callbacks_ s)
              (txns_applied_on_replicas_ s))
    as [[fired queue'] applied'] eqn:Hd.
  rewrite (ProcessTxnCallbacks_drain s _ _ _ Hd).
  apply drain_stops_blocked in Hd. unfold head_blocked.
  cbn [replicas_ txn_callbacks_ txns_applied_on_replicas_ set_txns_applied
       set_txn_callbacks].
  by destruct (invoke_all_fields fired s) as (_ & -> & _).
Qed.

(** X13: a call of [ReplicateBatchOfRecords] with policy [SYNC] and a record
    batch invokes no callback and neither reads nor changes the table: the
    callbacks go to the back of the queue as one batch with records, also
    when the table already holds full sets for their transactions. *)
Theorem ReplicateBatchOfRecords_sync_only_enqueues
    records commit_callbacks s s' :
  ReplicateBatchOfRecords (Some records) commit_callbacks SYNC s = Some s' →
  invoked_ s' = invoked_ s
  ∧ txn_callbacks_ s'
    = txn_callbacks_ s
        ++ [{| callbacks_ := commit_callbacks; has_records_ := true |}]
  ∧ txns_applied_on_replicas_ s' = txns_applied_on_replicas_ s.
Proof.
  intros (_ & _ & Et & Hcase)%ReplicateBatchOfRecords_ledger.
  by destruct Hcase as [Ei Eq].
Qed.

End Manager.

(** ** The theorems at work on concrete runs

    The reserved batch identifier is taken to be [0] and both counters start
    at [1]. *)

Lemma sync_callback_waits_for_every_replica_witness :
  let replicas : gset string := {["A"; "B"]} in
  let cb := sample_callback 1 1 in
  let calls :=
    [CallReplicate (Some sample_records) [cb] SYNC;
     CallHandle "A" (sample_applied 1);
     CallHandle "B" (sample_applied 1)] in
  ∃ s, run 0 calls (initial_state replicas 1 1) = Some s
       ∧ invoked_ s = [cb]
       ∧ NoDup (invoked_ s)
       ∧ ∀ r, r ∈ replicas → notified calls r 1.
Proof.
  intros replicas cb calls. name_final_state s Hrun.
  assert (Hlog : invoked_ s = [cb]) by by_running Hrun.
  split; [exact Hlog|].
  destruct (sync_callback_waits_for_every_replica 0 replicas 1 1 calls s Hrun)
    as [_ Hdistinct].
  destruct Hdistinct as [Hnodup Hwait]; [by_evaluation|].
  split; [exact Hnodup|].
  apply (Hwait ltac:(repeat constructor; by_evaluation) sample_records [cb] cb);
    [by_evaluation|by_evaluation|].
  rewrite Hlog. by_evaluation.
Defined.

(** Without the second replica the callback stays in the queue. *)
Example sync_callback_waits_for_second_replica :
  let cb := sample_callback 1 1 in
  (fun s => (invoked_ s, queued s))
  <$> run 0 [CallReplicate (Some sample_records) [cb] SYNC;
             CallHandle "A" (sample_applied 1)]
        (initial_state {["A"; "B"]} 1 1)
  = Some ([], [cb]).
Proof. vm_compute. reflexivity. Qed.

(** C1 as stated fails: [Handle] counts senders, whoever they are.  With
    replicas A and B, a notification from A and one from a sender X that is
    not a replica release the callback although B never notified. *)
Lemma sync_callback_released_by_stranger :
  let replicas : gset string := {["A"; "B"]} in
  let cb := sample_callback 1 1 in
  let calls :=
    [CallReplicate (Some sample_records) [cb] SYNC;
     CallHandle "A" (sample_applied 1);
     CallHandle "X" (sample_applied 1)] in
  ∃ s, run 0 calls (initial_state replicas 1 1) = Some s
       ∧ cb ∈ invoked_ s
       ∧ "B" ∈ replicas
       ∧ ¬ notified calls "B" (txn_start_time_ cb).
Proof.
  intros replicas cb calls. name_final_state s Hrun.
  assert (Hlog : invoked_ s = [cb]) by by_running Hrun.
  split; [rewrite Hlog; by_evaluation|]. split; [by_evaluation|].
  intros (msg & Hin & _).
  repeat (apply elem_of_cons in Hin as [Hin|Hin]; [discriminate Hin|]).
  by apply elem_of_nil in Hin.
Qed.

Lemma head_of_line_blocking_witness :
  let cb1 := sample_callback 1 1 in
  let cb2 := sample_callback 2 2 in
  let cb3 := sample_callback 3 3 in
  let cb4 := sample_callback 4 4 in
  let calls :=
    [CallReplicate (Some sample_records) [cb1] SYNC;
     CallReplicate (Some sample_records) [cb2; cb3; cb4] SYNC;
     CallHandle "A" (sample_applied 4);
     CallHandle "A" (sample_applied 2);
     CallHandle "A" (sample_applied 1)] in
  ∃ s, run 0 calls (initial_state {["A"]} 1 1) = Some s
       ∧ invoked_ s = [cb1; cb2]
       ∧ queued s = [cb3; cb4]
       ∧ (∀ l1 l2, invoked_ s = l1 ++ cb2 :: l2 → cb1 ∈ l1)
       ∧ all_replicas_applied (size (replicas_ s))
           (txns_applied_on_replicas_ s) cb4 = true
       ∧ invoked_ (Handle "A" (sample_applied 4) s) = invoked_ s
       ∧ txn_callbacks_ (Handle "A" (sample_applied 4) s) = txn_callbacks_ s.
Proof.
  intros cb1 cb2 cb3 cb4 calls. name_final_state s Hrun.
  pose proof Hrun as Hs. vm_compute in Hs. injection Hs as <-.
  split; [vm_compute; reflexivity|]. split; [vm_compute; reflexivity|].
  destruct (head_of_line_blocking 0 {["A"]} 1 1 calls _ [] []
              [CallHandle "A" (sample_applied 4);
               CallHandle "A" (sample_applied 2);
               CallHandle "A" (sample_applied 1)]
              sample_records [cb1] sample_records [cb2; cb3; cb4] Hrun
              ltac:(by_evaluation) eq_refl) as [Horder Hdrain].
  split; [intros l1 l2; apply Horder; by_evaluation|].
  split; [vm_compute; reflexivity|].
  destruct (Hdrain "A" (sample_applied 4)) as (_ & Hblock & _).
  apply (Hblock {| callbacks_ := [cb3; cb4]; has_records_ := true |} []
           cb3 [cb4]); vm_compute; reflexivity.
Defined.

(** The second batch is acknowledged first and has to wait. *)
Example head_of_line_blocking_second_batch_waits :
  let cbA := sample_callback 1 1 in
  let cbB := sample_callback 2 2 in
  (fun s => (invoked_ s, queued s))
  <$> run 0 [CallReplicate (Some sample_records) [cbA] SYNC;
             CallReplicate (Some sample_records) [cbB] SYNC;
             CallHandle "A" (sample_applied 2)]
        (initial_state {["A"]} 1 1)
  = Some ([], [cbA; cbB]).
Proof. vm_compute. reflexivity. Qed.

Lemma ReplicateBatchOfRecords_invokes_immediately_witness :
  let cbs := [sample_callback 1 1; sample_callback 2 2] in
  let s := initial_state {["A"]} 1 1 in
  ∃ s', ReplicateBatchOfRecords 0 None cbs SYNC s = Some s'
        ∧ invoked_ s' = cbs
        ∧ txn_callbacks_ s' = []
        ∧ sent_ s' = [].
Proof.
  intros cbs s.
  destruct (ReplicateBatchOfRecords_invokes_immediately 0 None cbs SYNC s)
    as [Heffect [s' Hcall]]; [right; reflexivity|discriminate|].
  destruct (Heffect s' Hcall) as (Hlog & Hqueue & _ & Hsent).
  exists s'. split; [exact Hcall|]. split; [exact Hlog|].
  split; [exact Hqueue|]. exact (Hsent eq_refl).
Defined.

Example ReplicateBatchOfRecords_async_with_records :
  let cbs := [sample_callback 1 1; sample_callback 2 2] in
  (fun s => (invoked_ s, txn_callbacks_ s, sent_ s))
  <$> ReplicateBatchOfRecords 0 (Some sample_records) cbs ASYNC
        (initial_state {["A"]} 1 1)
  = Some (cbs, [], [("A", RecordsBatchMsg 1 1 sample_records)]).
Proof. vm_compute. reflexivity. Qed.

Lemma batch_popped_only_when_exhausted_witness :
  let cb1 := sample_callback 1 1 in
  let cb2 := sample_callback 2 2 in
  let calls :=
    [CallReplicate (Some sample_records) [cb1] SYNC;
     CallReplicate (Some sample_records) [cb2] SYNC;
     CallHandle "A" (sample_applied 1)] in
  ∃ s, run 0 calls (initial_state {["A"]} 1 1) = Some s
       ∧ invoked_ s = [cb1]
       ∧ txn_callbacks_ s = [{| callbacks_ := [cb2]; has_records_ := true |}]
       ∧ ∀ cb, cb ∈ queued s → cb ∉ invoked_ s.
Proof.
  intros cb1 cb2 calls. name_final_state s Hrun.
  split; [by_running Hrun|]. split; [by_running Hrun|].
  destruct (batch_popped_only_when_exhausted 0 {["A"]} 1 1 calls s Hrun)
    as (_ & _ & Hfresh).
  apply Hfresh. by_evaluation.
Defined.

(** C4 as stated fails: the scan invokes the callbacks of the front batch one
    by one and returns at the first that has to wait.  Here the batch stays
    in the queue with one of its two callbacks invoked. *)
Lemma batch_left_partially_released :
  let cb1 := sample_callback 1 1 in
  let cb2 := sample_callback 2 2 in
  let calls :=
    [CallReplicate (Some sample_records) [cb1; cb2] SYNC;
     CallHandle "A" (sample_applied 1)] in
  ∃ s, run 0 calls (initial_state {["A"]} 1 1) = Some s
       ∧ invoked_ s = [cb1]
       ∧ txn_callbacks_ s = [{| callbacks_ := [cb2]; has_records_ := true |}].
Proof.
  intros cb1 cb2 calls. name_final_state s Hrun.
  split; by_running Hrun.
Qed.



Lemma GetNextBatchId_ids_increasing_until_wrap_witness :
  let s := initial_state ∅ 1 1 in
  (issued_batch_ids 0 3 s).1 = [1; 2; 3]
  ∧ Forall (fun id => id ≠ 0) (issued_batch_ids 0 3 s).1
  ∧ StronglySorted N.lt (issued_batch_ids 0 3 s).1
  ∧ NoDup (issued_batch_ids 0 3 s).1.
Proof.
  intros s. split; [vm_compute; reflexivity|].
  destruct (GetNextBatchId_ids_increasing_until_wrap 0 3 s)
    as (Hvalid & _ & _ & Hsorted); [discriminate|].
  split; [exact Hvalid|]. apply Hsorted. reflexivity.
Defined.

(** The counter steps over the reserved value when it lands on it. *)
Example GetNextBatchId_skips_reserved :
  let s := initial_state ∅ 1 (UINT64_MODULUS - 1) in
  ((GetNextBatchId 0 s).1, next_batch_id_ (GetNextBatchId 0 s).2)
  = (UINT64_MODULUS - 1, 1).
Proof. vm_compute. reflexivity. Qed.

(** C6 as stated fails for long runs: the counter has 64 bits.  Starting at
    [1], the call number [2^64 - 1] returns [2^64 - 1]; the counter wraps to
    the reserved value [0], steps over it, and the next call returns [1], as
    the first call did: the identifiers are neither increasing nor
    distinct. *)
Lemma GetNextBatchId_ids_repeat_after_wrap :
  let ids := (issued_batch_ids 0 UINT64_MODULUS (initial_state ∅ 1 1)).1 in
  ¬ StronglySorted N.lt ids ∧ ¬ NoDup ids.
Proof.
  intros ids. subst ids.
  change UINT64_MODULUS with (N.succ (N.succ 18446744073709551614)).
  rewrite !issued_batch_ids_succ.
  destruct (issued_batch_ids_no_wrap 0 18446744073709551614
              (initial_state ∅ 1 1)) as (Hnext & _ & _);
    [discriminate|reflexivity|].
  pose proof (issued_batch_ids_first 0 18446744073709551614
                (initial_state ∅ 1 1) eq_refl) as Hfirst.
  destruct (issued_batch_ids 0 18446744073709551614 (initial_state ∅ 1 1))
    as [ids s]. cbn [fst snd] in *.
  change (next_batch_id_ (initial_state ∅ 1 1)) with 1 in Hfirst.
  change (next_batch_id_ (initial_state ∅ 1 1) + 18446744073709551614
          + skipped 0 (next_batch_id_ (initial_state ∅ 1 1))
              18446744073709551614)
    with 18446744073709551615 in Hnext.
  unfold issue_batch_id. cbn [fst snd].
  pose proof (GetNextBatchId_spec 0 s) as (Hid1 & _ & Hnext1).
  destruct (GetNextBatchId 0 s) as [id1 s1]. cbn [fst snd] in *.
  pose proof (GetNextBatchId_spec 0 s1) as (Hid2 & _ & _).
  destruct (GetNextBatchId 0 s1) as [id2 s2]. cbn [fst snd] in *.
  rewrite Hnext in Hid1, Hnext1.
  change (if N.eqb (uint64_incr 18446744073709551615) 0
          then uint64_incr (uint64_incr 18446744073709551615)
          else uint64_incr 18446744073709551615) with 1 in Hnext1.
  subst id1 id2. rewrite Hnext1. split.
  - intros (Hlt & _ & _)%StronglySorted_app.
    specialize (Hlt 18446744073709551615 1).
    assert (18446744073709551615 < 1) as Habs.
    { apply Hlt; [|by left]. apply elem_of_app. right. by left. }
    discriminate Habs.
  - intros (_ & Hdisj & _)%NoDup_app.
    apply (Hdisj 1); [|by left]. apply elem_of_app. by left.
Qed.

Lemma applied_set_size_bounded_witness :
  let replicas : gset string := {["A"; "B"]} in
  let calls :=
    [CallHandle "A" (sample_applied 1); CallHandle "B" (sample_applied 1)] in
  ∃ s, run 0 calls (initial_state replicas 1 1) = Some s
       ∧ txns_applied_on_replicas_ s !! 1 = Some {["A"; "B"]}
       ∧ ({["A"; "B"]} : gset string) ⊆ replicas
       ∧ (size ({["A"; "B"]} : gset string) ≤ size replicas)%nat.
Proof.
  intros replicas calls. name_final_state s Hrun.
  assert (Hentry : txns_applied_on_replicas_ s !! 1 = Some {["A"; "B"]})
    by by_running Hrun.
  split; [exact Hentry|].
  apply (applied_set_size_bounded 0 replicas 1 1 calls s 1 _ Hrun);
    [repeat constructor; by_evaluation|exact Hentry].
Defined.

(** C7 as stated fails: [Handle] records the sender without looking it up in
    [replicas_].  With the single replica A, notifications from X and Y give
    transaction 1 a set of size two. *)
Lemma applied_set_exceeds_replica_count :
  let replicas : gset string := {["A"]} in
  let calls :=
    [CallHandle "X" (sample_applied 1); CallHandle "Y" (sample_applied 1)] in
  ∃ s S, run 0 calls (initial_state replicas 1 1) = Some s
         ∧ txns_applied_on_replicas_ s !! 1 = Some S
         ∧ size S = 2%nat
         ∧ size replicas = 1%nat.
Proof.
  intros replicas calls.
  destruct (run 0 calls (initial_state replicas 1 1)) as [s|] eqn:Hrun;
    [|exfalso; vm_compute in Hrun; discriminate Hrun].
  exists s, {["X"; "Y"]}. split; [reflexivity|].
  split; [by_running Hrun|]. split; vm_compute; reflexivity.
Qed.

Lemma queued_batches_have_records_witness :
  let calls :=
    [CallReplicate None [sample_callback 1 1] SYNC;
     CallReplicate (Some sample_records) [sample_callback 2 2] ASYNC;
     CallReplicate (Some sample_records) [sample_callback 3 3] SYNC] in
  ∃ s, run 0 calls (initial_state {["A"]} 1 1) = Some s
       ∧ txn_callbacks_ s
         = [{| callbacks_ := [sample_callback 3 3]; has_records_ := true |}]
       ∧ Forall (fun b => has_records_ b = true) (txn_callbacks_ s)
       ∧ ∀ applied,
           visits_no_records_branch (size (replicas_ s)) (txn_callbacks_ s)
             applied = false.
Proof.
  intros calls. name_final_state s Hrun.
  split; [by_running Hrun|].
  exact (queued_batches_have_records 0 {["A"]} 1 1 calls s Hrun).
Defined.

Lemma Handle_below_replica_count_witness :
  let s := initial_state {["A"; "B"]} 1 1 in
  let s' := Handle "A" (sample_applied 1) s in
  txn_callbacks_ s' = txn_callbacks_ s
  ∧ invoked_ s' = invoked_ s
  ∧ txns_applied_on_replicas_ s' = {[1 := {["A"]}]}
  ∧ sent_ s' = [("A", AckMsg 1 7)].
Proof.
  intros s s'.
  destruct (Handle_below_replica_count "A" (sample_applied 1) s)
    as (Hstate & Hqueue & Hlog & Hsent).
  { vm_compute. discriminate. }
  fold s' in Hstate, Hqueue, Hlog, Hsent.
  split; [exact Hqueue|]. split; [exact Hlog|]. split; [|exact Hsent].
  rewrite Hstate. vm_compute. reflexivity.
Defined.

(** ** The further properties at work on concrete inputs *)

Lemma ReplicateBatchOfRecords_broadcasts_witness :
  let s := initial_state {["A"; "B"]} 1 1 in
  ∃ s', ReplicateBatchOfRecords 0 (Some sample_records)
          [sample_callback 1 1] ASYNC s = Some s'
        ∧ sent_ s' = [("A", RecordsBatchMsg 1 1 sample_records);
                      ("B", RecordsBatchMsg 1 1 sample_records)]
        ∧ ∃ msg_id destinations,
            sent_ s'
            = sent_ s
                ++ ((fun d => (d, RecordsBatchMsg msg_id (next_batch_id_ s)
                                    sample_records)) <$> destinations)
            ∧ NoDup destinations
            ∧ (∀ r, r ∈ destinations ↔ r ∈ replicas_ s)
            ∧ empty_buffer_queue_ s'
              = empty_buffer_queue_ s
                  ++ (if MarkSerialized sample_records
                      then [sample_records] else []).
Proof.
  intros s. name_final_state s' Hcall.
  split; [by_running Hcall|].
  exact (ReplicateBatchOfRecords_broadcasts 0 sample_records
           [sample_callback 1 1] ASYNC s s' Hcall).
Defined.

Lemma ReplicateBatchOfRecords_without_records_is_silent_witness :
  let s := initial_state {["A"; "B"]} 1 1 in
  ∃ s', ReplicateBatchOfRecords 0 None [sample_callback 1 1] SYNC s = Some s'
        ∧ sent_ s' = sent_ s
        ∧ next_msg_id_ s' = next_msg_id_ s
        ∧ next_batch_id_ s' = next_batch_id_ s
        ∧ empty_buffer_queue_ s' = empty_buffer_queue_ s.
Proof.
  intros s. name_final_state s' Hcall.
  exact (ReplicateBatchOfRecords_without_records_is_silent 0
           [sample_callback 1 1] SYNC s s' Hcall).
Defined.

Lemma run_never_sends_reserved_batch_id_witness :
  let calls :=
    [CallReplicate (Some sample_records) [sample_callback 1 1] SYNC;
     CallHandle "A" (sample_applied 1);
     CallReplicate (Some sample_records) [sample_callback 2 2] ASYNC] in
  ∃ s, run 0 calls (initial_state {["A"]} 1 1) = Some s
       ∧ next_batch_id_ s = 3
       ∧ next_batch_id_ s ≠ 0
       ∧ sent_batch_ids_valid 0 (sent_ s).
Proof.
  intros calls. name_final_state s Hrun.
  split; [by_running Hrun|].
  apply (run_never_sends_reserved_batch_id 0 {["A"]} 1 1 calls s);
    [discriminate|exact Hrun].
Defined.

Lemma replica_receives_increasing_batch_ids_witness :
  let calls :=
    [CallReplicate (Some sample_records) [sample_callback 1 1] SYNC;
     CallReplicate None [sample_callback 2 2] SYNC;
     CallHandle "B" (sample_applied 1);
     CallReplicate (Some sample_records) [sample_callback 3 3] ASYNC] in
  ∃ s, run 0 calls (initial_state {["A"; "B"]} 1 1) = Some s
       ∧ batch_ids_to "B" (sent_ s) = [1; 2]
       ∧ Forall (fun id => id ≠ 0) (batch_ids_to "B" (sent_ s))
       ∧ StronglySorted N.lt (batch_ids_to "B" (sent_ s)).
Proof.
  intros calls. name_final_state s Hrun.
  split; [by_running Hrun|].
  destruct (replica_receives_increasing_batch_ids 0 {["A"; "B"]} 1 1 calls s
              "B" Hrun ltac:(by_evaluation)) as (_ & Hrest).
  destruct Hrest as [Hvalid Hsorted]; [discriminate|].
  split; [exact Hvalid|]. apply Hsorted. reflexivity.
Defined.

Lemma callbacks_conserved_witness :
  let cb1 := sample_callback 1 1 in
  let cb2 := sample_callback 2 2 in
  let cb3 := sample_callback 3 3 in
  let calls :=
    [CallReplicate (Some sample_records) [cb1; cb2] SYNC;
     CallReplicate (Some sample_records) [cb3] ASYNC;
     CallHandle "A" (sample_applied 1)] in
  ∃ s, run 0 calls (initial_state {["A"]} 1 1) = Some s
       ∧ invoked_ s = [cb3; cb1]
       ∧ queued s = [cb2]
       ∧ invoked_ s ++ queued s ≡ₚ [cb1; cb2; cb3]
       ∧ ∃ released,
           released ++ queued s = [cb1; cb2]
           ∧ released `sublist_of` invoked_ s.
Proof.
  intros cb1 cb2 cb3 calls. name_final_state s Hrun.
  split; [by_running Hrun|]. split; [by_running Hrun|].
  exact (callbacks_conserved 0 {["A"]} 1 1 calls s Hrun).
Defined.

Lemma no_replicas_no_release_witness :
  let cb1 := sample_callback 1 1 in
  let cb2 := sample_callback 2 2 in
  let calls :=
    [CallReplicate (Some sample_records) [cb1] SYNC;
     CallReplicate None [cb2] SYNC;
     CallHandle "A" (sample_applied 1)] in
  ∃ s, run 0 calls (initial_state ∅ 1 1) = Some s
       ∧ invoked_ s = [cb2] ∧ queued s = [cb1].
Proof.
  intros cb1 cb2 calls. name_final_state s Hrun.
  exact (no_replicas_no_release 0 1 1 calls s Hrun).
Defined.

Lemma Handle_erases_entries_of_invoked_witness :
  let cb1 := sample_callback 1 1 in
  let calls := [CallReplicate (Some sample_records) [cb1] SYNC] in
  ∃ s, run 0 calls (initial_state {["A"]} 1 1) = Some s
       ∧ invoked_ (Handle "A" (sample_applied 1) s) = [cb1]
       ∧ ∃ fired,
           invoked_ (Handle "A" (sample_applied 1) s) = invoked_ s ++ fired
           ∧ ∀ cb, cb ∈ fired →
               txns_applied_on_replicas_ (Handle "A" (sample_applied 1) s)
               !! txn_start_time_ cb = None.
Proof.
  intros cb1 calls. name_final_state s Hrun.
  split; [by_running Hrun|].
  exact (Handle_erases_entries_of_invoked 0 {["A"]} 1 1 calls s "A"
           (sample_applied 1) Hrun).
Defined.

Lemma Handle_releases_completed_head_witness :
  let cb1 := sample_callback 1 1 in
  let cb2 := sample_callback 2 2 in
  let b := {| callbacks_ := [cb1; cb2]; has_records_ := true |} in
  let s :=
    set_txns_applied {[1 := {["A"]}]}
      (set_txn_callbacks [b] (initial_state {["A"; "B"]} 1 1)) in
  (∃ fired',
     invoked_ (Handle "B" (sample_applied 1) s) = invoked_ s ++ cb1 :: fired')
  ∧ txns_applied_on_replicas_ (Handle "B" (sample_applied 1) s) !! 1 = None.
Proof.
  intros cb1 cb2 b s.
  apply (Handle_releases_completed_head "B" (sample_applied 1) s b [] cb1
           [cb2]); reflexivity.
Defined.

Lemma ProcessTxnCallbacks_releases_everything_witness :
  let cb1 := sample_callback 1 1 in
  let cb2 := sample_callback 2 2 in
  let s :=
    set_txns_applied {[1 := {["A"]}; 2 := {["A"]}]}
      (set_txn_callbacks
         [{| callbacks_ := [cb1]; has_records_ := true |};
          {| callbacks_ := [cb2]; has_records_ := true |}]
         (initial_state {["A"]} 1 1)) in
  invoked_ (ProcessTxnCallbacks s) = invoked_ s ++ queued s
  ∧ txn_callbacks_ (ProcessTxnCallbacks s) = [].
Proof.
  intros cb1 cb2 s.
  apply (ProcessTxnCallbacks_releases_everything s); [by_evaluation|].
  intros cb Hcb.
  apply elem_of_cons in Hcb as [->|Hcb]; [vm_compute; reflexivity|].
  apply elem_of_cons in Hcb as [->|Hcb]; [vm_compute; reflexivity|].
  by apply elem_of_nil in Hcb.
Defined.

Lemma Handle_keeps_entry_nobody_waits_for_witness :
  let s := initial_state {["A"]} 1 1 in
  txns_applied_on_replicas_ (Handle "A" (sample_applied 5) s) !! 5
  = Some ({["A"]} ∪ default ∅ (txns_applied_on_replicas_ s !! 5)).
Proof.
  intros s. apply (Handle_keeps_entry_nobody_waits_for "A" (sample_applied 5) s).
  intros cb Hcb. by apply elem_of_nil in Hcb.
Defined.

Lemma ReplicateBatchOfRecords_sync_only_enqueues_witness :
  let cb1 := sample_callback 1 1 in
  let s := set_txns_applied {[1 := {["A"]}]} (initial_state {["A"]} 1 1) in
  ∃ s', ReplicateBatchOfRecords 0 (Some sample_records) [cb1] SYNC s = Some s'
        ∧ invoked_ s' = invoked_ s
        ∧ txn_callbacks_ s'
          = txn_callbacks_ s
              ++ [{| callbacks_ := [cb1]; has_records_ := true |}]
        ∧ txns_applied_on_replicas_ s' = txns_applied_on_replicas_ s.
Proof.
  intros cb1 s. name_final_state s' Hcall.
  exact (ReplicateBatchOfRecords_sync_only_enqueues 0 sample_records [cb1]
           s s' Hcall).
Defined.
